(** * The RNS ciphertext container of troy (src/ciphertext.h)

    A shallow embedding of [troy::Ciphertext].  The class owns a dynamic
    array of unsigned 64-bit words together with the metadata that fixes its
    layout: [size_] polynomials of [poly_modulus_degree_ * coeff_modulus_size_]
    words each, stored one after the other.

    Conventions.
    - [std::size_t] and [std::uint64_t] values are binary naturals ([N]); the
      target has 64-bit [size_t], and the one place where the source
      multiplies without a check ([sizeCapacity]) has its wrap-around written
      out with [wrap].
    - A C++ call that may throw returns a [result]; besides a value and an
      exception it has a third outcome, [Undefined], for executions the C++
      standard gives no meaning to (an iterator range that is not a range of
      the buffer, a read outside the allocation).
    - Pointers into the backing array are word offsets from its first word;
      [nullptr] is kept apart. *)

From Stdlib Require Import ZArith NArith Lia Bool Floats.
From stdpp Require Import base list.

Local Open Scope N_scope.

(** ** Outcomes of a call *)

Inductive exn : Set :=
  | InvalidArgument   (* std::invalid_argument *)
  | Overflow          (* the failure of a checked multiplication *)
  | OutOfRange        (* std::out_of_range *)
  | LogicError.       (* std::logic_error *)

Inductive result (A : Type) : Type :=
  | Ret (a : A)
  | Throw (e : exn)
  | Undefined.

Arguments Ret {A} a.
Arguments Throw {A} e.
Arguments Undefined {A}.

Definition rbind {A B : Type} (r : result A) (k : A -> result B) : result B :=
  match r with
  | Ret a => k a
  | Throw e => Throw e
  | Undefined => Undefined
  end.

#[export] Instance result_ret : MRet result := @Ret.
#[export] Instance result_bind : MBind result := fun A B k r => rbind r k.

(** ** utils/common.h *)

Module util.

Definition size_t_bits : N := 64.
Definition size_t_max : N := 2 ^ size_t_bits - 1.

(** Unchecked [size_t] arithmetic is taken modulo [2^64]. *)
Definition wrap (x : N) : N := x mod 2 ^ size_t_bits.

(** Modelled from the spec: [util::mul_safe] is defined in utils/common.h,
    which is not part of this unit.  Section 7 of the specification gives
    its contract: a product that exceeds the addressable range is an
    [Overflow] failure, never a wrapped value. *)
Definition mul_safe (in1 in2 : N) : result N :=
  if size_t_max <? in1 * in2 then Throw Overflow else Ret (in1 * in2).

(** Modelled from the spec: [util::safe_cast<std::size_t>] (utils/common.h)
    applied to a [size_t]; the value already has the target type. *)
Definition safe_cast (x : N) : result N :=
  if size_t_max <? x then Throw Overflow else Ret x.

(** [util::isZero<ct_coeff_type>] *)
Definition isZero (w : N) : bool := w =? 0.

End util.

(** ** Pointers into the backing array *)

Inductive pointer : Set :=
  | nullptr
  | at_offset (o : N).

Definition ptr_add (p : pointer) (k : N) : result pointer :=
  match p with
  | nullptr => if k =? 0 then Ret nullptr else Undefined
  | at_offset o => Ret (at_offset (o + k))
  end.

(** ** utils/hostarray.h *)

Module HostDynamicArray.

(** Modelled from the spec: [util::HostDynamicArray<T>] is declared in a
    header that is not part of this unit.  The specification (section 2,
    Backing Buffer) describes an owned, contiguous, resizable array of
    unsigned 64-bit words with independent notions of logical size and
    allocated capacity: [mem] is the allocation, its first [size] words are
    the logical contents. *)
Record t : Type := mk { size : N; mem : list N }.

(** Modelled from the spec: the default-constructed array owns no memory
    (section 4.1, Construction: empty, no allocation). *)
Definition empty : t := {| size := 0; mem := [] |}.

(** Modelled from the spec: [capacity()] is the allocated length in words. *)
Definition capacity (a : t) : N := N.of_nat (length (mem a)).

(** Modelled from the spec: [begin()] and [cbegin()] point at the first word
    of the buffer, [cend()] one past its last logical word. *)
Definition begin (a : t) : pointer := at_offset 0.
Definition cbegin (a : t) : pointer := at_offset 0.
Definition cend (a : t) : pointer := at_offset (size a).

(** The logical contents: what the checked accessors can reach. *)
Definition contents (a : t) : list N := take (N.to_nat (size a)) (mem a).

(** Modelled from the spec: bounds-checked element access; section 4.1
    (Access) and section 7 make an index at or past the logical length an
    [OutOfRange] failure. *)
Definition at_ (a : t) (index : N) : result N :=
  if size a <=? index then Throw OutOfRange
  else match mem a !! N.to_nat index with
       | Some w => Ret w
       | None => Undefined
       end.

(** Modelled from the spec: assignment through the reference returned by
    the mutable [at]. *)
Definition set_at (a : t) (index w : N) : result t :=
  if size a <=? index then Throw OutOfRange
  else if capacity a <=? index then Undefined
  else Ret {| size := size a; mem := <[N.to_nat index := w]> (mem a) |}.

(** Modelled from the spec: [release] frees the backing buffer (section 4.1,
    release()). *)
Definition release (a : t) : t := empty.

(** Reading [p[k]] through a raw pointer into the allocation. *)
Definition deref (a : t) (p : pointer) (k : N) : result N :=
  match p with
  | nullptr => Undefined
  | at_offset o =>
      match mem a !! N.to_nat (o + k) with
      | Some w => Ret w
      | None => Undefined
      end
  end.

(** [std::all_of(first, last, pred)] over a range of the array.  The call has
    a meaning only when [first, last) is a range inside the allocation. *)
Definition all_of (a : t) (first last : pointer) (pred : N -> bool) : result bool :=
  match first, last with
  | at_offset f, at_offset l =>
      if (f <=? l) && (l <=? capacity a)
      then Ret (forallb pred (take (N.to_nat (l - f)) (drop (N.to_nat f) (mem a))))
      else Undefined
  | nullptr, nullptr => Ret true
  | _, _ => Undefined
  end.

(** Modelled from the spec: growing the allocation (section 4.1, reserve).
    When [n] exceeds the current capacity a new buffer of [n] words is
    allocated and the logical contents are copied into it; otherwise the
    existing buffer is reused. *)
Definition reserve (a : t) (n : N) : t :=
  if capacity a <? n
  then {| size := size a;
          mem := contents a ++ replicate (N.to_nat (n - size a)) 0 |}
  else a.

(** Modelled from the spec: changing the logical length within the
    allocation (section 4.1, resize).  Words newly brought into view are
    zero; shrinking leaves the words past the new length in the buffer. *)
Definition resize (a : t) (n : N) : t :=
  if n <=? size a
  then {| size := n; mem := mem a |}
  else {| size := n;
          mem := take (N.to_nat (size a)) (mem a)
                 ++ replicate (N.to_nat (n - size a)) 0
                 ++ drop (N.to_nat n) (mem a) |}.

End HostDynamicArray.

(** ** Parameter identifiers *)

(** Modelled from the spec: [ParmsID] and [parmsIDZero] come from a header
    outside this unit.  Section 3 describes an opaque, equality-comparable
    fixed-width fingerprint whose all-zero value means unset; four 64-bit
    words are used here. *)
Definition ParmsID : Set := (N * N * N * N)%type.
Definition parmsIDZero : ParmsID := (0, 0, 0, 0).

(** Modelled from the spec: [SEAL_CIPHERTEXT_SIZE_MIN] is a macro of
    utils/defines.h, outside this unit; the specification gives the scheme
    minimum as 2. *)
Definition SEAL_CIPHERTEXT_SIZE_MIN : N := 2.

(** ** class Ciphertext *)

Module Ciphertext.

Record t : Type := mk {
  parms_id_ : ParmsID;
  is_ntt_form_ : bool;
  size_ : N;
  poly_modulus_degree_ : N;
  coeff_modulus_size_ : N;
  scale_ : float;
  correction_factor_ : N;
  data_ : HostDynamicArray.t
}.

(** [Ciphertext() : data_()] with the default member initializers. *)
Definition Ciphertext : t :=
  {| parms_id_ := parmsIDZero;
     is_ntt_form_ := false;
     size_ := 0;
     poly_modulus_degree_ := 0;
     coeff_modulus_size_ := 0;
     scale_ := 1%float;
     correction_factor_ := 1;
     data_ := HostDynamicArray.empty |}.

(** [void release() noexcept] *)
Definition release (c : t) : t :=
  {| parms_id_ := parmsIDZero;
     is_ntt_form_ := false;
     size_ := 0;
     poly_modulus_degree_ := 0;
     coeff_modulus_size_ := 0;
     scale_ := 1%float;
     correction_factor_ := 1;
     data_ := HostDynamicArray.release (data_ c) |}.

(** [dynArray()]: the backing array itself. *)
Definition dynArray (c : t) : HostDynamicArray.t := data_ c.

(** [data()], both overloads: the beginning of the ciphertext data. *)
Definition data_begin (c : t) : pointer := HostDynamicArray.begin (data_ c).

(** [data(std::size_t poly_index)], both the const and the mutable
    overload. *)
Definition data (c : t) (poly_index : N) : result pointer :=
  poly_uint64_count ← util.mul_safe (poly_modulus_degree_ c) (coeff_modulus_size_ c);
  if poly_uint64_count =? 0 then Ret nullptr
  else if size_ c <=? poly_index then Throw OutOfRange
  else
    prod ← util.mul_safe poly_index poly_uint64_count;
    off ← util.safe_cast prod;
    ptr_add (HostDynamicArray.begin (data_ c)) off.

(** [operator[](std::size_t coeff_index)], read through the reference. *)
Definition operator_index (c : t) (coeff_index : N) : result N :=
  HostDynamicArray.at_ (data_ c) coeff_index.

(** [operator[](std::size_t coeff_index)], assignment through the mutable
    reference: [c[coeff_index] = w]. *)
Definition operator_index_assign (c : t) (coeff_index w : N) : result t :=
  d ← HostDynamicArray.set_at (data_ c) coeff_index w;
  Ret {| parms_id_ := parms_id_ c;
         is_ntt_form_ := is_ntt_form_ c;
         size_ := size_ c;
         poly_modulus_degree_ := poly_modulus_degree_ c;
         coeff_modulus_size_ := coeff_modulus_size_ c;
         scale_ := scale_ c;
         correction_factor_ := correction_factor_ c;
         data_ := d |}.

Definition coeffModulusSize (c : t) : N := coeff_modulus_size_ c.
Definition polyModulusDegree (c : t) : N := poly_modulus_degree_ c.
Definition size (c : t) : N := size_ c.
Definition isNttForm (c : t) : bool := is_ntt_form_ c.
Definition parmsID (c : t) : ParmsID := parms_id_ c.
Definition scale (c : t) : float := scale_ c.
Definition correctionFactor (c : t) : N := correction_factor_ c.

(** [std::size_t sizeCapacity() const noexcept]: the product is a plain
    [size_t] multiplication. *)
Definition sizeCapacity (c : t) : N :=
  let poly_uint64_count := util.wrap (poly_modulus_degree_ c * coeff_modulus_size_ c) in
  if poly_uint64_count =? 0 then 0
  else HostDynamicArray.capacity (data_ c) / poly_uint64_count.

(** [bool isTransparent() const]; [||] evaluates left to right and stops at
    the first true operand. *)
Definition isTransparent (c : t) : result bool :=
  if HostDynamicArray.size (data_ c) =? 0 then Ret true
  else if size_ c <? SEAL_CIPHERTEXT_SIZE_MIN then Ret true
  else
    first ← data c 1;
    HostDynamicArray.all_of (data_ c) first (HostDynamicArray.cend (data_ c)) util.isZero.

(** [bool hasSeedMarker() const noexcept] *)
Definition hasSeedMarker (c : t) : result bool :=
  if negb (HostDynamicArray.size (data_ c) =? 0) && (size_ c =? 2)
  then
    p ← data c 1;
    w ← HostDynamicArray.deref (data_ c) p 0;
    Ret (w =? 0xFFFFFFFFFFFFFFFF)
  else Ret false.

(** Assignment through the references returned by the mutable accessors
    [parmsID()], [isNttForm()], [scale()] and [correctionFactor()]. *)
Definition set_parmsID (p : ParmsID) (c : t) : t :=
  {| parms_id_ := p;
     is_ntt_form_ := is_ntt_form_ c;
     size_ := size_ c;
     poly_modulus_degree_ := poly_modulus_degree_ c;
     coeff_modulus_size_ := coeff_modulus_size_ c;
     scale_ := scale_ c;
     correction_factor_ := correction_factor_ c;
     data_ := data_ c |}.

Definition set_isNttForm (b : bool) (c : t) : t :=
  {| parms_id_ := parms_id_ c;
     is_ntt_form_ := b;
     size_ := size_ c;
     poly_modulus_degree_ := poly_modulus_degree_ c;
     coeff_modulus_size_ := coeff_modulus_size_ c;
     scale_ := scale_ c;
     correction_factor_ := correction_factor_ c;
     data_ := data_ c |}.

Definition set_scale (x : float) (c : t) : t :=
  {| parms_id_ := parms_id_ c;
     is_ntt_form_ := is_ntt_form_ c;
     size_ := size_ c;
     poly_modulus_degree_ := poly_modulus_degree_ c;
     coeff_modulus_size_ := coeff_modulus_size_ c;
     scale_ := x;
     correction_factor_ := correction_factor_ c;
     data_ := data_ c |}.

Definition set_correctionFactor (x : N) (c : t) : t :=
  {| parms_id_ := parms_id_ c;
     is_ntt_form_ := is_ntt_form_ c;
     size_ := size_ c;
     poly_modulus_degree_ := poly_modulus_degree_ c;
     coeff_modulus_size_ := coeff_modulus_size_ c;
     scale_ := scale_ c;
     correction_factor_ := x;
     data_ := data_ c |}.

End Ciphertext.

(** ** Calls that change the container *)

(** A member function that mutates the object is a function from the state
    before the call to an outcome and the state after it.  A throwing call
    keeps whatever it had already written: that a failed call leaves the
    state untouched is a property to be proved of each function, not a
    feature of the monad. *)
Definition M (A : Type) : Type := Ciphertext.t -> result A * Ciphertext.t.

#[export] Instance M_ret : MRet M := fun A a c => (Ret a, c).
#[export] Instance M_bind : MBind M := fun A B k m c =>
  match m c with
  | (Ret a, c') => k a c'
  | (Throw e, c') => (Throw e, c')
  | (Undefined, c') => (Undefined, c')
  end.

Definition get : M Ciphertext.t := fun c => (Ret c, c).
Definition modify (f : Ciphertext.t -> Ciphertext.t) : M unit := fun c => (Ret tt, f c).
Definition lift {A : Type} (r : result A) : M A := fun c => (r, c).
Definition throw {A : Type} (e : exn) : M A := fun c => (Throw e, c).
Definition require (b : bool) (e : exn) : M unit :=
  if b then mret tt else throw e.

(** ** context.h *)

(** Modelled from the spec: [SEALContext] is declared in context.h, outside
    this unit.  Section 6 describes the registry as a lookup from a parameter
    identifier to a degree and a modulus count, failing for an unknown
    identifier, together with a default identifier. *)
Record SEALContext : Type := {
  get_context_data : ParmsID -> option (N * N);
  firstParmsID : ParmsID
}.

(** ** ciphertext.cpp: reserve and resize *)

Module CiphertextImpl.

Import Ciphertext.

Definition with_allocation (n k : N) (d : HostDynamicArray.t) (c : Ciphertext.t)
  : Ciphertext.t :=
  {| parms_id_ := parms_id_ c;
     is_ntt_form_ := is_ntt_form_ c;
     size_ := size_ c;
     poly_modulus_degree_ := n;
     coeff_modulus_size_ := k;
     scale_ := scale_ c;
     correction_factor_ := correction_factor_ c;
     data_ := d |}.

Definition with_size (s : N) (d : HostDynamicArray.t) (c : Ciphertext.t)
  : Ciphertext.t :=
  {| parms_id_ := parms_id_ c;
     is_ntt_form_ := is_ntt_form_ c;
     size_ := s;
     poly_modulus_degree_ := poly_modulus_degree_ c;
     coeff_modulus_size_ := coeff_modulus_size_ c;
     scale_ := scale_ c;
     correction_factor_ := correction_factor_ c;
     data_ := d |}.

(** The three-factor product [a * b * c] of section 4.1, each
    multiplication checked. *)
Definition mul_safe3 (a b c : N) : result N :=
  ab ← util.mul_safe a b; util.mul_safe ab c.

(** Section 4.1 reports an overflowing size computation of [resize] as
    [InvalidArgument]. *)
Definition overflow_as_invalid {A : Type} (r : result A) : result A :=
  match r with
  | Throw Overflow => Throw InvalidArgument
  | _ => r
  end.

(** The parameters asked for differ from those that back existing
    polynomials. *)
Definition mismatch (c : Ciphertext.t) (n k : N) : bool :=
  (0 <? size_ c)
  && negb ((n =? poly_modulus_degree_ c) && (k =? coeff_modulus_size_ c)).

(** Modelled from the spec: [Ciphertext::reserveInternal] is defined in
    ciphertext.cpp, which is not part of this unit.  Section 4.1 (reserve)
    and section 7: a capacity below 2 is [InvalidArgument]; the allocation
    [capacity * N * K] is computed with overflow checks ([Overflow]); a
    parameter pair that differs from the one backing existing polynomials
    is [InvalidArgument] (the class section 7 files it under); all of this
    is decided before anything is written.  Then the buffer is reallocated when the computed allocation
    exceeds the current one, and reused otherwise, and [degree] and
    [modulus_count] are updated. *)
Definition reserveInternal (size_capacity poly_modulus_degree coeff_modulus_size : N)
  : M unit :=
  _ ← require (SEAL_CIPHERTEXT_SIZE_MIN <=? size_capacity) InvalidArgument;
  new_data_capacity ← lift (mul_safe3 size_capacity poly_modulus_degree coeff_modulus_size);
  c ← get;
  _ ← require (negb (mismatch c poly_modulus_degree coeff_modulus_size)) InvalidArgument;
  modify (fun c =>
    with_allocation poly_modulus_degree coeff_modulus_size
      (HostDynamicArray.reserve (data_ c) new_data_capacity) c).

(** Modelled from the spec: [Ciphertext::resizeInternal] is defined in
    ciphertext.cpp, which is not part of this unit.  Section 4.1 (resize):
    a size below 2 or an overflowing [new_size * N * K] is
    [InvalidArgument]; the allocation is left to the reserve step, which
    reallocates only when the buffer cannot hold the new size and which
    also rejects mismatched parameters before it writes; then [size] is
    set and the logical length of the buffer follows it, the words newly
    brought into view being zero. *)
Definition resizeInternal (size poly_modulus_degree coeff_modulus_size : N) : M unit :=
  _ ← require (SEAL_CIPHERTEXT_SIZE_MIN <=? size) InvalidArgument;
  new_data_size ← lift (overflow_as_invalid
                          (mul_safe3 size poly_modulus_degree coeff_modulus_size));
  _ ← reserveInternal size poly_modulus_degree coeff_modulus_size;
  modify (fun c => with_size size (HostDynamicArray.resize (data_ c) new_data_size) c).

(** Modelled from the spec: [Ciphertext::reserve(context, parms_id,
    size_capacity)] is only declared in this unit.  Section 4.1: the
    registry is consulted first (an unknown identifier is
    [InvalidArgument]); the parameter identifier is updated together with
    the degree and the modulus count, after validation. *)
Definition reserve (context : SEALContext) (parms_id : ParmsID) (size_capacity : N)
  : M unit :=
  match get_context_data context parms_id with
  | None => throw InvalidArgument
  | Some (n, k) =>
      _ ← reserveInternal size_capacity n k;
      modify (set_parmsID parms_id)
  end.

(** Modelled from the spec: [Ciphertext::resize(context, parms_id, size)]
    is only declared in this unit; section 4.1 as for [reserve]. *)
Definition resize (context : SEALContext) (parms_id : ParmsID) (size : N) : M unit :=
  match get_context_data context parms_id with
  | None => throw InvalidArgument
  | Some (n, k) =>
      _ ← resizeInternal size n k;
      modify (set_parmsID parms_id)
  end.

(** [reserve(const SEALContext &context, std::size_t size_capacity)] *)
Definition reserve_first (context : SEALContext) (size_capacity : N) : M unit :=
  let parms_id := firstParmsID context in
  reserve context parms_id size_capacity.

(** [reserve(std::size_t size_capacity)] *)
Definition reserve_current (size_capacity : N) : M unit :=
  c ← get;
  reserveInternal size_capacity (poly_modulus_degree_ c) (coeff_modulus_size_ c).

(** [resize(const SEALContext &context, std::size_t size)] *)
Definition resize_first (context : SEALContext) (size : N) : M unit :=
  let parms_id := firstParmsID context in
  resize context parms_id size.

(** [resize(std::size_t size)] *)
Definition resize_current (size : N) : M unit :=
  c ← get;
  resizeInternal size (poly_modulus_degree_ c) (coeff_modulus_size_ c).

(** [explicit Ciphertext(const SEALContext &context)] and its two
    overloads: a default construction followed by a reserve.  A constructor
    that throws yields no object. *)
Definition construct (reserve_call : M unit) : result Ciphertext.t :=
  match reserve_call Ciphertext.Ciphertext with
  | (Ret _, c) => Ret c
  | (Throw e, _) => Throw e
  | (Undefined, _) => Undefined
  end.

Definition Ciphertext_context (context : SEALContext) : result Ciphertext.t :=
  construct (reserve_first context 2).

Definition Ciphertext_parms (context : SEALContext) (parms_id : ParmsID)
  : result Ciphertext.t :=
  construct (reserve context parms_id 2).

Definition Ciphertext_capacity (context : SEALContext) (parms_id : ParmsID)
    (size_capacity : N) : result Ciphertext.t :=
  construct (reserve context parms_id size_capacity).

(** [Ciphertext(const Ciphertext &copy) = default]: every member is copied;
    the buffer is duplicated (section 4.1, Copy), so the new object has the
    same value. *)
Definition copy_construct (copy : Ciphertext.t) : Ciphertext.t :=
  {| parms_id_ := parms_id_ copy;
     is_ntt_form_ := is_ntt_form_ copy;
     size_ := size_ copy;
     poly_modulus_degree_ := poly_modulus_degree_ copy;
     coeff_modulus_size_ := coeff_modulus_size_ copy;
     scale_ := scale_ copy;
     correction_factor_ := correction_factor_ copy;
     data_ := {| HostDynamicArray.size := HostDynamicArray.size (data_ copy);
                 HostDynamicArray.mem := HostDynamicArray.mem (data_ copy) |} |}.

(** [Ciphertext(Ciphertext &&source) = default]: the state of the new
    object.  Every member is moved and the new object takes over the buffer.
    What the moved-from array is left with is decided by
    [HostDynamicArray]'s move constructor, outside this unit; the moved-from
    object is not followed here. *)
Definition move_construct (source : Ciphertext.t) : Ciphertext.t :=
  {| parms_id_ := parms_id_ source;
     is_ntt_form_ := is_ntt_form_ source;
     size_ := size_ source;
     poly_modulus_degree_ := poly_modulus_degree_ source;
     coeff_modulus_size_ := coeff_modulus_size_ source;
     scale_ := scale_ source;
     correction_factor_ := correction_factor_ source;
     data_ := data_ source |}.

End CiphertextImpl.

(** ** Sequences of calls *)

Inductive call : Type :=
  | CallReserve (parms_id : ParmsID) (size_capacity : N)
  | CallReserveFirst (size_capacity : N)
  | CallReserveCurrent (size_capacity : N)
  | CallResize (parms_id : ParmsID) (size : N)
  | CallResizeFirst (size : N)
  | CallResizeCurrent (size : N)
  | CallRelease
  | CallCopy
  | CallMove
  | CallAssign (coeff_index w : N)
  | CallSetParmsID (p : ParmsID)
  | CallSetNttForm (b : bool)
  | CallSetScale (x : float)
  | CallSetCorrectionFactor (x : N).

(** [c[coeff_index] = w] as a call: the object changes only when the
    assignment takes place. *)
Definition assign (coeff_index w : N) : M unit := fun c =>
  match Ciphertext.operator_index_assign c coeff_index w with
  | Ret c' => (Ret tt, c')
  | Throw e => (Throw e, c)
  | Undefined => (Undefined, c)
  end.

Definition run (context : SEALContext) (op : call) : M unit :=
  match op with
  | CallReserve p n => CiphertextImpl.reserve context p n
  | CallReserveFirst n => CiphertextImpl.reserve_first context n
  | CallReserveCurrent n => CiphertextImpl.reserve_current n
  | CallResize p n => CiphertextImpl.resize context p n
  | CallResizeFirst n => CiphertextImpl.resize_first context n
  | CallResizeCurrent n => CiphertextImpl.resize_current n
  | CallRelease => modify Ciphertext.release
  | CallCopy => modify CiphertextImpl.copy_construct
  | CallMove => modify CiphertextImpl.move_construct
  | CallAssign j w => assign j w
  | CallSetParmsID p => modify (Ciphertext.set_parmsID p)
  | CallSetNttForm b => modify (Ciphertext.set_isNttForm b)
  | CallSetScale x => modify (Ciphertext.set_scale x)
  | CallSetCorrectionFactor x => modify (Ciphertext.set_correctionFactor x)
  end.

(** The states a container can be in: it starts default-constructed (the
    constructors that take a context are a default construction followed by
    a reserve) and each call allowed by [ok] takes it to the state the call
    leaves, whether the call returns or throws. *)
Inductive reachable_by (ok : Ciphertext.t -> call -> Prop) (context : SEALContext)
  : Ciphertext.t -> Prop :=
  | reach_default : reachable_by ok context Ciphertext.Ciphertext
  | reach_call (c : Ciphertext.t) (op : call) :
      reachable_by ok context c -> ok c op ->
      reachable_by ok context (snd (run context op c)).

Definition reachable : SEALContext -> Ciphertext.t -> Prop :=
  reachable_by (fun _ _ => True).

(** ** Predicates on states and example states *)

Import Ciphertext.

(** Words of one polynomial, as a mathematical product. *)
Definition poly_words (c : Ciphertext.t) : N :=
  poly_modulus_degree_ c * coeff_modulus_size_ c.

(** The layout of section 3 of the specification: the logical length of the
    buffer is [size * degree * modulus_count], it lies inside the allocation,
    and the allocation and the words of one polynomial are addressable. *)
Definition layout (c : Ciphertext.t) : Prop :=
  HostDynamicArray.size (data_ c)
    = size_ c * poly_modulus_degree_ c * coeff_modulus_size_ c
  /\ HostDynamicArray.size (data_ c) <= HostDynamicArray.capacity (data_ c)
  /\ HostDynamicArray.capacity (data_ c) <= util.size_t_max
  /\ poly_modulus_degree_ c * coeff_modulus_size_ c <= util.size_t_max.

(** What every call maintains: the layout, and a positive number of words per
    polynomial as soon as there is a polynomial. *)
Definition sound (c : Ciphertext.t) : Prop :=
  layout c /\ (0 < size_ c -> 0 < poly_words c).

(** A resize is parameterised when the parameter set it lays the buffer out
    for has at least one word per polynomial. *)
Definition parameterised (context : SEALContext) (c : Ciphertext.t) (op : call) : Prop :=
  match op with
  | CallResize p _ =>
      forall d k, get_context_data context p = Some (d, k) -> 0 < d * k
  | CallResizeFirst _ =>
      forall d k, get_context_data context (firstParmsID context) = Some (d, k) -> 0 < d * k
  | CallResizeCurrent _ => 0 < poly_words c
  | _ => True
  end.

Definition seed_marker : N := 0xFFFFFFFFFFFFFFFF.

(** Degree 8, two primes, two polynomials of zero coefficients: 32 words. *)
Definition zero_ct : Ciphertext.t :=
  {| parms_id_ := (1, 2, 3, 4);
     is_ntt_form_ := false;
     size_ := 2;
     poly_modulus_degree_ := 8;
     coeff_modulus_size_ := 2;
     scale_ := 1%float;
     correction_factor_ := 1;
     data_ := {| HostDynamicArray.size := 32;
                 HostDynamicArray.mem := replicate 32 0 |} |}.

(** The same ciphertext with the seed marker in the first word of the second
    polynomial. *)
Definition seeded_ct : Ciphertext.t :=
  {| parms_id_ := (1, 2, 3, 4);
     is_ntt_form_ := false;
     size_ := 2;
     poly_modulus_degree_ := 8;
     coeff_modulus_size_ := 2;
     scale_ := 1%float;
     correction_factor_ := 1;
     data_ := {| HostDynamicArray.size := 32;
                 HostDynamicArray.mem :=
                   <[16%nat := 0xFFFFFFFFFFFFFFFF]> (replicate 32 0) |} |}.

(** A state whose degree and modulus count multiply to [2^64 + 2]: outside
    every parameter set, it shows what each product does past the range. *)
Definition wide_ct : Ciphertext.t :=
  {| parms_id_ := (1, 2, 3, 4);
     is_ntt_form_ := false;
     size_ := 2;
     poly_modulus_degree_ := 0x8000000000000001;
     coeff_modulus_size_ := 2;
     scale_ := 1%float;
     correction_factor_ := 1;
     data_ := {| HostDynamicArray.size := 4;
                 HostDynamicArray.mem := [0; 0; 0; 0] |} |}.

Definition example_context : SEALContext :=
  {| get_context_data := fun p => if decide (p = (1, 2, 3, 4)) then Some (8, 2) else None;
     firstParmsID := (1, 2, 3, 4) |}.

(** The empty ciphertext after [resize(context, 2)]. *)
Definition sized_ct : Ciphertext.t :=
  snd (run example_context (CallResizeFirst 2) Ciphertext).

(** The empty ciphertext after [resize(2)]. *)
Definition sized_without_parameters : Ciphertext.t :=
  snd (run example_context (CallResizeCurrent 2) Ciphertext).

(** Two states with the same number of polynomials and the same parameters. *)
Definition same_shape (c c' : Ciphertext.t) : Prop :=
  size_ c' = size_ c
  /\ poly_modulus_degree_ c' = poly_modulus_degree_ c
  /\ coeff_modulus_size_ c' = coeff_modulus_size_ c.

(** Degree 4, one prime, three polynomials; a nonzero word in the last. *)
Definition busy_ct : Ciphertext.t :=
  {| parms_id_ := (5, 6, 7, 8);
     is_ntt_form_ := true;
     size_ := 3;
     poly_modulus_degree_ := 4;
     coeff_modulus_size_ := 1;
     scale_ := 1%float;
     correction_factor_ := 1;
     data_ := {| HostDynamicArray.size := 12;
                 HostDynamicArray.mem := [1; 2; 3; 4; 0; 0; 0; 0; 0; 0; 9; 0; 7; 7; 7; 7] |} |}.

(** * Properties *)

Section Helpers.

Lemma mul_safe_fits (a b : N) :
  a * b <= util.size_t_max -> util.mul_safe a b = Ret (a * b).
Proof.
  intros H. unfold util.mul_safe.
  destruct (N.ltb_spec util.size_t_max (a * b)); [lia | reflexivity].
Qed.


Lemma safe_cast_fits (a : N) :
  a <= util.size_t_max -> util.safe_cast a = Ret a.
Proof.
  intros H. unfold util.safe_cast.
  destruct (N.ltb_spec util.size_t_max a); [lia | reflexivity].
Qed.

Lemma data_null (c : Ciphertext.t) (i : N) :
  poly_words c = 0 -> data c i = Ret nullptr.
Proof.
  unfold poly_words, data. intros H.
  rewrite mul_safe_fits by (rewrite H; apply N.le_0_l).
  cbn. rewrite H. reflexivity.
Qed.

Lemma data_out_of_range (c : Ciphertext.t) (i : N) :
  0 < poly_words c -> poly_words c <= util.size_t_max -> size_ c <= i ->
  data c i = Throw OutOfRange.
Proof.
  unfold poly_words, data. intros Hpos Hfit Hi.
  rewrite mul_safe_fits by assumption. cbn.
  destruct (N.eqb_spec (poly_modulus_degree_ c * coeff_modulus_size_ c) 0); [lia |].
  destruct (N.leb_spec (size_ c) i); [reflexivity | lia].
Qed.

Lemma data_start (c : Ciphertext.t) (i : N) :
  0 < poly_words c -> poly_words c <= util.size_t_max -> i < size_ c ->
  i * poly_words c <= util.size_t_max ->
  data c i = Ret (at_offset (i * poly_words c)).
Proof.
  unfold poly_words, data. intros Hpos Hfit Hi Hoff.
  rewrite mul_safe_fits by assumption. cbn.
  destruct (N.eqb_spec (poly_modulus_degree_ c * coeff_modulus_size_ c) 0); [lia |].
  destruct (N.leb_spec (size_ c) i); [lia |].
  rewrite mul_safe_fits by assumption. cbn.
  rewrite safe_cast_fits by assumption. reflexivity.
Qed.

(** In a laid-out state every polynomial below [size_] starts inside the
    logical buffer. *)
Lemma layout_offset (c : Ciphertext.t) (i : N) :
  layout c -> i < size_ c ->
  i * poly_words c + poly_words c <= HostDynamicArray.size (data_ c)
  /\ HostDynamicArray.size (data_ c) <= util.size_t_max.
Proof.
  unfold layout, poly_words. intros (Hlen & Hcap & Hmax & Hpw) Hi.
  split; [| lia].
  rewrite Hlen. nia.
Qed.

Lemma forallb_window (p : N -> bool) (l : list N) (f n : nat) :
  forallb p (take n (drop f l)) = true <->
  forall i x, (f <= i < f + n)%nat -> l !! i = Some x -> p x = true.
Proof.
  rewrite forallb_forall. split.
  - intros H i x Hi Hx.
    apply H. apply list_elem_of_In, list_elem_of_lookup.
    exists (i - f)%nat. rewrite lookup_take_lt by lia.
    rewrite lookup_drop. replace (f + (i - f))%nat with i by lia. exact Hx.
  - intros H x Hin.
    apply list_elem_of_In, list_elem_of_lookup in Hin as [k Hk].
    destruct (decide (k < n)%nat) as [Hlt | Hge].
    + rewrite lookup_take_lt in Hk by lia. rewrite lookup_drop in Hk.
      apply (H (f + k)%nat x); [lia | exact Hk].
    + rewrite lookup_take_ge in Hk by lia. discriminate.
Qed.

End Helpers.

(** ** Construction and release *)

(** C10.  A default-constructed ciphertext has size, degree, modulus count and
    capacity 0, the zero parameter identifier, the transform-domain flag
    cleared, scale 1.0 and correction factor 1; on it [isTransparent] returns
    true and [hasSeedMarker] returns false. *)
Theorem default_constructed_state :
  size Ciphertext = 0
  /\ polyModulusDegree Ciphertext = 0
  /\ coeffModulusSize Ciphertext = 0
  /\ sizeCapacity Ciphertext = 0
  /\ parmsID Ciphertext = parmsIDZero
  /\ isNttForm Ciphertext = false
  /\ scale Ciphertext = 1%float
  /\ correctionFactor Ciphertext = 1
  /\ isTransparent Ciphertext = Ret true
  /\ hasSeedMarker Ciphertext = Ret false.
Proof. repeat split. Qed.

Lemma release_is_default (c : Ciphertext.t) : release c = Ciphertext.
Proof. reflexivity. Qed.

(** C3.  [release] is a total function of the state (it cannot fail); after it
    the parameter identifier is the zero sentinel, the transform-domain flag
    is false, size, degree and modulus count are 0, scale is 1.0, the
    correction factor is 1 and the backing buffer holds no memory; a second
    [release] changes nothing. *)
Theorem release_resets_and_is_idempotent (c : Ciphertext.t) :
  parmsID (release c) = parmsIDZero
  /\ isNttForm (release c) = false
  /\ size (release c) = 0
  /\ polyModulusDegree (release c) = 0
  /\ coeffModulusSize (release c) = 0
  /\ scale (release c) = 1%float
  /\ correctionFactor (release c) = 1
  /\ HostDynamicArray.size (data_ (release c)) = 0
  /\ HostDynamicArray.capacity (data_ (release c)) = 0
  /\ HostDynamicArray.mem (data_ (release c)) = []
  /\ release (release c) = release c.
Proof. repeat split. Qed.

(** ** The transparency predicate *)

Section Transparency.

Variable c : Ciphertext.t.
Hypothesis Hlayout : layout c.

Let dsize := HostDynamicArray.size (data_ c).

(** Past the two guards, [isTransparent] is the scan of the words from the
    start of polynomial 1 to the end of the logical buffer. *)
Lemma isTransparent_scan :
  dsize <> 0 -> 2 <= size_ c ->
  isTransparent c =
    Ret (forallb util.isZero
           (take (N.to_nat (dsize - poly_words c))
                 (drop (N.to_nat (poly_words c)) (HostDynamicArray.mem (data_ c))))).
Proof.
  intros Hne Hsz. subst dsize.
  destruct (layout_offset c 1 Hlayout ltac:(lia)) as [Hoff Hmax].
  pose proof Hlayout as (Hlen & Hcap & Hcmax & Hpw).
  assert (0 < poly_words c) as Hpos.
  { unfold poly_words. destruct (N.eq_dec (poly_modulus_degree_ c * coeff_modulus_size_ c) 0) as [E|E]; [|lia].
    exfalso. apply Hne. rewrite Hlen, <- N.mul_assoc, E. lia. }
  unfold isTransparent.
  destruct (N.eqb_spec (HostDynamicArray.size (data_ c)) 0); [contradiction |].
  unfold SEAL_CIPHERTEXT_SIZE_MIN.
  destruct (N.ltb_spec (size_ c) 2); [lia |].
  rewrite (data_start c 1) by (fold (poly_words c) in Hpw; lia).
  cbn. unfold HostDynamicArray.all_of, HostDynamicArray.cend.
  rewrite N.mul_1_l.
  destruct (N.leb_spec (poly_words c) (HostDynamicArray.size (data_ c))); [| lia].
  destruct (N.leb_spec (HostDynamicArray.size (data_ c)) (HostDynamicArray.capacity (data_ c))); [| lia].
  reflexivity.
Qed.

Lemma isTransparent_returns : exists b, isTransparent c = Ret b.
Proof.
  destruct (N.eq_dec dsize 0) as [E | E].
  - exists true. unfold isTransparent. subst dsize. rewrite E. reflexivity.
  - destruct (N.lt_ge_cases (size_ c) 2) as [Hlt | Hge].
    + exists true. unfold isTransparent, SEAL_CIPHERTEXT_SIZE_MIN.
      destruct (N.eqb_spec (HostDynamicArray.size (data_ c)) 0); [reflexivity |].
      destruct (N.ltb_spec (size_ c) 2); [reflexivity | lia].
    + eexists. apply isTransparent_scan; assumption.
Qed.

Lemma isTransparent_iff :
  isTransparent c = Ret true <->
  (dsize = 0 \/ size_ c < 2 \/
   forall j, poly_words c <= j -> j < dsize -> operator_index c j = Ret 0).
Proof.
  destruct (N.eq_dec dsize 0) as [E | E].
  { split; [auto |]. intros _. unfold isTransparent. subst dsize. rewrite E. reflexivity. }
  destruct (N.lt_ge_cases (size_ c) 2) as [Hlt | Hge].
  { split; [auto |]. intros _. unfold isTransparent, SEAL_CIPHERTEXT_SIZE_MIN.
    destruct (N.eqb_spec (HostDynamicArray.size (data_ c)) 0); [reflexivity |].
    destruct (N.ltb_spec (size_ c) 2); [reflexivity | lia]. }
  rewrite isTransparent_scan by assumption.
  pose proof Hlayout as (Hlen & Hcap & Hcmax & Hpw).
  fold dsize in Hcap.
  split.
  - intros H. right; right. intros j Hlo Hhi.
    injection H as H. rewrite forallb_window in H.
    unfold operator_index, HostDynamicArray.at_. fold dsize.
    destruct (N.leb_spec dsize j); [lia |].
    destruct (lookup_lt_is_Some_2 (HostDynamicArray.mem (data_ c)) (N.to_nat j)) as [x Hx].
    { unfold HostDynamicArray.capacity in Hcap. lia. }
    rewrite Hx. specialize (H (N.to_nat j) x ltac:(lia) Hx).
    unfold util.isZero in H. apply N.eqb_eq in H. subst x. reflexivity.
  - intros [H | [H | H]]; [contradiction | lia |].
    f_equal. apply forallb_window. intros i x Hi Hx.
    specialize (H (N.of_nat i) ltac:(lia) ltac:(lia)).
    unfold operator_index, HostDynamicArray.at_ in H. fold dsize in H.
    destruct (N.leb_spec dsize (N.of_nat i)); [lia |].
    rewrite Nat2N.id, Hx in H. injection H as ->. reflexivity.
Qed.

End Transparency.

(** ** Writing one coefficient *)

Lemma assign_inv (c c' : Ciphertext.t) (j w : N) :
  operator_index_assign c j w = Ret c' ->
  j < HostDynamicArray.size (data_ c)
  /\ j < HostDynamicArray.capacity (data_ c)
  /\ parms_id_ c' = parms_id_ c
  /\ is_ntt_form_ c' = is_ntt_form_ c
  /\ size_ c' = size_ c
  /\ poly_modulus_degree_ c' = poly_modulus_degree_ c
  /\ coeff_modulus_size_ c' = coeff_modulus_size_ c
  /\ scale_ c' = scale_ c
  /\ correction_factor_ c' = correction_factor_ c
  /\ HostDynamicArray.size (data_ c') = HostDynamicArray.size (data_ c)
  /\ HostDynamicArray.mem (data_ c')
       = <[N.to_nat j := w]> (HostDynamicArray.mem (data_ c)).
Proof.
  unfold operator_index_assign, HostDynamicArray.set_at.
  destruct (N.leb_spec (HostDynamicArray.size (data_ c)) j); [discriminate |].
  destruct (N.leb_spec (HostDynamicArray.capacity (data_ c)) j); [discriminate |].
  cbn. intros [= <-]. cbn. repeat split; assumption.
Qed.

Lemma assign_layout (c c' : Ciphertext.t) (j w : N) :
  layout c -> operator_index_assign c j w = Ret c' -> layout c'.
Proof.
  intros (Hlen & Hcap & Hcmax & Hpw) Hw.
  apply assign_inv in Hw
    as (_ & _ & _ & _ & Hs & Hd & Hk & _ & _ & Hds & Hmem).
  unfold layout, HostDynamicArray.capacity in *.
  rewrite Hs, Hd, Hk, Hds, Hmem, length_insert. auto.
Qed.

Lemma assign_read_same (c c' : Ciphertext.t) (j w : N) :
  operator_index_assign c j w = Ret c' -> operator_index c' j = Ret w.
Proof.
  intros Hw.
  apply assign_inv in Hw
    as (Hj & Hjc & _ & _ & _ & _ & _ & _ & _ & Hds & Hmem).
  unfold operator_index, HostDynamicArray.at_. rewrite Hds, Hmem.
  destruct (N.leb_spec (HostDynamicArray.size (data_ c)) j); [lia |].
  rewrite list_lookup_insert_eq; [reflexivity |].
  unfold HostDynamicArray.capacity in Hjc. lia.
Qed.

(** C1.  In a laid-out state [isTransparent] returns a boolean, and it returns
    true exactly when the buffer is empty, or [size_] is below 2, or every
    coefficient from flat offset [degree * modulus_count] to the end of the
    logical buffer is zero.  Hence a nonzero coefficient written at a flat
    index at or past that offset makes it false, and a write below that
    offset (polynomial 0) leaves its result as it was. *)
Theorem isTransparent_characterisation (c : Ciphertext.t) :
  layout c ->
  (exists b, isTransparent c = Ret b)
  /\ (isTransparent c = Ret true <->
        HostDynamicArray.size (data_ c) = 0
        \/ size_ c < 2
        \/ forall j, poly_words c <= j -> j < HostDynamicArray.size (data_ c) ->
                     operator_index c j = Ret 0)
  /\ (forall j w c', poly_words c <= j -> w <> 0 ->
        operator_index_assign c j w = Ret c' -> isTransparent c' = Ret false)
  /\ (forall j w c', j < poly_words c ->
        operator_index_assign c j w = Ret c' -> isTransparent c' = isTransparent c).
Proof.
  intros Hl. split; [apply isTransparent_returns, Hl |].
  split; [apply isTransparent_iff, Hl |].
  split.
  - intros j w c' Hj Hw Hassign.
    pose proof (assign_layout _ _ _ _ Hl Hassign) as Hl'.
    pose proof (assign_read_same _ _ _ _ Hassign) as Hread.
    pose proof (assign_inv _ _ _ _ Hassign)
      as (Hjs & _ & _ & _ & Hs & Hd & Hk & _ & _ & Hds & _).
    destruct (isTransparent_returns c' Hl') as [[|] Hb]; [| exact Hb].
    exfalso. apply (isTransparent_iff c' Hl') in Hb.
    destruct Hl as (Hlen & _).
    assert (poly_words c' = poly_words c) as Hpw'
      by (unfold poly_words; rewrite Hd, Hk; reflexivity).
    destruct Hb as [Hb | [Hb | Hb]].
    + lia.
    + rewrite Hs in Hb. unfold poly_words in Hj.
      assert (size_ c * poly_modulus_degree_ c * coeff_modulus_size_ c
              <= 1 * (poly_modulus_degree_ c * coeff_modulus_size_ c)) by nia.
      lia.
    + specialize (Hb j ltac:(lia) ltac:(lia)). rewrite Hread in Hb.
      injection Hb as Hb. contradiction.
  - intros j w c' Hj Hassign.
    pose proof (assign_layout _ _ _ _ Hl Hassign) as Hl'.
    pose proof (assign_inv _ _ _ _ Hassign)
      as (Hjs & _ & _ & _ & Hs & Hd & Hk & _ & _ & Hds & Hmem).
    assert (poly_words c' = poly_words c) as Hpw'
      by (unfold poly_words; rewrite Hd, Hk; reflexivity).
    destruct (N.lt_ge_cases (size_ c) 2) as [Hlt | Hge].
    + unfold isTransparent, SEAL_CIPHERTEXT_SIZE_MIN. rewrite Hds, Hs.
      destruct (N.eqb_spec (HostDynamicArray.size (data_ c)) 0); [reflexivity |].
      destruct (N.ltb_spec (size_ c) 2); [reflexivity | lia].
    + rewrite (isTransparent_scan c' Hl') by lia.
      rewrite (isTransparent_scan c Hl) by lia.
      rewrite Hpw', Hds, Hmem.
      rewrite drop_insert_lt by lia. reflexivity.
Qed.

(** ** The seed marker *)

Section SeedMarker.

Variable c : Ciphertext.t.
Hypothesis Hlayout : layout c.

Lemma hasSeedMarker_off :
  HostDynamicArray.size (data_ c) = 0 \/ size_ c <> 2 -> hasSeedMarker c = Ret false.
Proof.
  unfold hasSeedMarker. intros [H | H].
  - rewrite H. reflexivity.
  - destruct (N.eqb_spec (size_ c) 2); [contradiction |].
    rewrite andb_false_r. reflexivity.
Qed.

Lemma hasSeedMarker_reads :
  HostDynamicArray.size (data_ c) <> 0 -> size_ c = 2 ->
  exists w, operator_index c (poly_words c) = Ret w
            /\ hasSeedMarker c = Ret (w =? seed_marker).
Proof.
  intros Hne Hsz.
  destruct (layout_offset c 1 Hlayout ltac:(lia)) as [Hoff Hmax].
  pose proof Hlayout as (Hlen & Hcap & Hcmax & Hpw).
  assert (0 < poly_words c) as Hpos.
  { unfold poly_words.
    destruct (N.eq_dec (poly_modulus_degree_ c * coeff_modulus_size_ c) 0) as [E|E]; [|lia].
    exfalso. apply Hne. rewrite Hlen, <- N.mul_assoc, E. lia. }
  assert (poly_words c < HostDynamicArray.size (data_ c)) as Hin by lia.
  destruct (lookup_lt_is_Some_2 (HostDynamicArray.mem (data_ c)) (N.to_nat (poly_words c)))
    as [w Hw].
  { unfold HostDynamicArray.capacity in Hcap. lia. }
  exists w. split.
  - unfold operator_index, HostDynamicArray.at_.
    destruct (N.leb_spec (HostDynamicArray.size (data_ c)) (poly_words c)); [lia |].
    rewrite Hw. reflexivity.
  - unfold hasSeedMarker.
    destruct (N.eqb_spec (HostDynamicArray.size (data_ c)) 0); [contradiction |].
    rewrite Hsz. cbn [negb andb N.eqb Pos.eqb].
    rewrite (data_start c 1) by (fold (poly_words c) in Hpw; lia).
    cbn. rewrite N.mul_1_l, N.add_0_r, Hw. reflexivity.
Qed.

Lemma hasSeedMarker_returns : exists b, hasSeedMarker c = Ret b.
Proof.
  destruct (N.eq_dec (HostDynamicArray.size (data_ c)) 0) as [E | E].
  { exists false. apply hasSeedMarker_off. auto. }
  destruct (N.eq_dec (size_ c) 2) as [E2 | E2].
  - destruct (hasSeedMarker_reads E E2) as (w & _ & H). eauto.
  - exists false. apply hasSeedMarker_off. auto.
Qed.

Lemma hasSeedMarker_iff :
  hasSeedMarker c = Ret true <->
  size_ c = 2 /\ operator_index c (poly_words c) = Ret seed_marker.
Proof.
  destruct (N.eq_dec (size_ c) 2) as [E2 | E2].
  2: { rewrite hasSeedMarker_off by auto. split; [discriminate | tauto]. }
  destruct (N.eq_dec (HostDynamicArray.size (data_ c)) 0) as [E | E].
  { rewrite hasSeedMarker_off by auto. split; [discriminate |].
    intros [_ H]. unfold operator_index, HostDynamicArray.at_ in H.
    rewrite E in H.
    destruct (N.leb_spec 0 (poly_words c)); [discriminate | lia]. }
  destruct (hasSeedMarker_reads E E2) as (w & Hr & Hm).
  rewrite Hm, Hr. split.
  - intros [= H]. apply N.eqb_eq in H. subst w. auto.
  - intros [_ [= ->]]. reflexivity.
Qed.

End SeedMarker.

(** C4.  In a laid-out state [hasSeedMarker] returns a boolean, and it returns
    true exactly when [size_] is 2 and the coefficient at flat offset
    [degree * modulus_count], the first residue word of the second polynomial,
    is the all-ones 64-bit word. *)
Theorem hasSeedMarker_characterisation (c : Ciphertext.t) :
  layout c ->
  (exists b, hasSeedMarker c = Ret b)
  /\ (hasSeedMarker c = Ret true <->
        size_ c = 2
        /\ operator_index c (poly_modulus_degree_ c * coeff_modulus_size_ c)
           = Ret 0xFFFFFFFFFFFFFFFF).
Proof.
  intros Hl. split.
  - apply hasSeedMarker_returns, Hl.
  - apply (hasSeedMarker_iff c Hl).
Qed.

(** C9.  In a laid-out state, if [hasSeedMarker] returns true then
    [isTransparent] returns false: the marker is a nonzero word of the second
    polynomial. *)
Theorem seed_marker_excludes_transparent (c : Ciphertext.t) :
  layout c -> hasSeedMarker c = Ret true -> isTransparent c = Ret false.
Proof.
  intros Hl Hm.
  apply (hasSeedMarker_iff c Hl) in Hm as [Hsz Hread].
  destruct (isTransparent_returns c Hl) as [[|] Hb]; [| exact Hb].
  exfalso. apply (isTransparent_iff c Hl) in Hb.
  assert (poly_words c < HostDynamicArray.size (data_ c)) as Hin.
  { unfold operator_index, HostDynamicArray.at_ in Hread.
    destruct (N.leb_spec (HostDynamicArray.size (data_ c)) (poly_words c));
      [discriminate | assumption]. }
  destruct Hb as [Hb | [Hb | Hb]]; [lia | lia |].
  specialize (Hb (poly_words c) ltac:(lia) Hin).
  rewrite Hread in Hb. discriminate.
Qed.

Lemma layout_zero_ct : layout zero_ct.
Proof. unfold layout. repeat split; vm_compute; intros H; discriminate H. Defined.

Lemma layout_seeded_ct : layout seeded_ct.
Proof. unfold layout. repeat split; vm_compute; intros H; discriminate H. Defined.

Lemma layout_busy_ct : layout busy_ct.
Proof. unfold layout. repeat split; vm_compute; intros H; discriminate H. Defined.

Lemma layout_default : layout Ciphertext.
Proof. unfold layout. repeat split; vm_compute; intros H; discriminate H. Defined.

Lemma isTransparent_characterisation_witness :
  layout zero_ct /\ exists b, isTransparent zero_ct = Ret b.
Proof.
  split; [exact layout_zero_ct |].
  exact (proj1 (isTransparent_characterisation zero_ct layout_zero_ct)).
Defined.

Lemma hasSeedMarker_characterisation_witness :
  layout seeded_ct /\ exists b, hasSeedMarker seeded_ct = Ret b.
Proof.
  split; [exact layout_seeded_ct |].
  exact (proj1 (hasSeedMarker_characterisation seeded_ct layout_seeded_ct)).
Defined.

Lemma seed_marker_excludes_transparent_witness :
  hasSeedMarker seeded_ct = Ret true /\ isTransparent seeded_ct = Ret false.
Proof.
  split; [reflexivity |].
  apply (seed_marker_excludes_transparent seeded_ct layout_seeded_ct).
  reflexivity.
Defined.

(** ** The polynomial accessor *)

(** C6, as stated, fails on the empty ciphertext: index 0 is not below its
    size 0, yet [data] returns the null pointer and no [OutOfRange]. *)
Lemma data_null_beats_out_of_range :
  layout Ciphertext
  /\ size_ Ciphertext <= 0
  /\ data Ciphertext 0 = Ret nullptr
  /\ data Ciphertext 0 <> Throw OutOfRange.
Proof.
  split; [exact layout_default |].
  split; [reflexivity |].
  split; [reflexivity | discriminate].
Qed.

(** C6, amended.  In a laid-out state [data i] returns the null pointer
    whenever [degree * modulus_count] is 0, whatever the index; when the
    product is positive it fails with [OutOfRange] for every [i >= size_],
    and for [i < size_] it returns the start of polynomial [i], exactly
    [i * degree * modulus_count] words past the start of the buffer and with
    the whole polynomial inside the logical buffer. *)
Theorem data_characterisation (c : Ciphertext.t) (i : N) :
  layout c ->
  (poly_modulus_degree_ c * coeff_modulus_size_ c = 0 -> data c i = Ret nullptr)
  /\ (0 < poly_modulus_degree_ c * coeff_modulus_size_ c -> size_ c <= i ->
      data c i = Throw OutOfRange)
  /\ (0 < poly_modulus_degree_ c * coeff_modulus_size_ c -> i < size_ c ->
      data c i
        = Ret (at_offset (i * poly_modulus_degree_ c * coeff_modulus_size_ c))
      /\ i * poly_modulus_degree_ c * coeff_modulus_size_ c
           + poly_modulus_degree_ c * coeff_modulus_size_ c
         <= HostDynamicArray.size (data_ c)).
Proof.
  intros Hl. pose proof Hl as (Hlen & Hcap & Hcmax & Hpw).
  split; [apply data_null |].
  split; [intros Hpos Hi; apply data_out_of_range; assumption |].
  intros Hpos Hi.
  destruct (layout_offset c i Hl Hi) as [Hoff Hmax].
  rewrite <- !N.mul_assoc. fold (poly_words c) in *.
  split; [| exact Hoff].
  apply data_start; try assumption. lia.
Qed.

(** The scenario of section 8: degree 8, two primes, resized to 2. *)
Example resize_scenario :
  fst (run example_context (CallResizeFirst 2) Ciphertext) = Ret tt
  /\ HostDynamicArray.size (data_ sized_ct) = 32
  /\ data sized_ct 0 = Ret (at_offset 0)
  /\ data sized_ct 1 = Ret (at_offset 16)
  /\ isTransparent sized_ct = Ret true.
Proof. repeat split. Qed.

Lemma data_characterisation_witness :
  layout zero_ct /\ data zero_ct 1 = Ret (at_offset 16).
Proof.
  split; [exact layout_zero_ct |].
  apply (proj2 (proj2 (data_characterisation zero_ct 1 layout_zero_ct)));
    reflexivity.
Defined.

(** ** The flat coefficient accessor *)

(** C7.  In a laid-out state [operator[] j] fails with [OutOfRange] exactly
    when [j >= size * degree * modulus_count], and below that bound it returns
    the [j]-th word of the logical buffer. *)
Theorem operator_index_characterisation (c : Ciphertext.t) (j : N) :
  layout c ->
  (operator_index c j = Throw OutOfRange <->
     size_ c * poly_modulus_degree_ c * coeff_modulus_size_ c <= j)
  /\ (j < size_ c * poly_modulus_degree_ c * coeff_modulus_size_ c ->
      exists w, HostDynamicArray.contents (data_ c) !! N.to_nat j = Some w
                /\ operator_index c j = Ret w).
Proof.
  intros (Hlen & Hcap & Hcmax & Hpw). rewrite <- Hlen.
  unfold operator_index, HostDynamicArray.at_, HostDynamicArray.contents.
  unfold HostDynamicArray.capacity in Hcap.
  split.
  - destruct (N.leb_spec (HostDynamicArray.size (data_ c)) j) as [Hge | Hlt].
    + tauto.
    + destruct (lookup_lt_is_Some_2 (HostDynamicArray.mem (data_ c)) (N.to_nat j))
        as [w Hw]; [lia |].
      rewrite Hw. split; [discriminate | lia].
  - intros Hlt.
    destruct (N.leb_spec (HostDynamicArray.size (data_ c)) j) as [Hge | _]; [lia |].
    destruct (lookup_lt_is_Some_2 (HostDynamicArray.mem (data_ c)) (N.to_nat j))
      as [w Hw]; [lia |].
    exists w. rewrite lookup_take_lt by lia. rewrite Hw. auto.
Qed.

Lemma operator_index_characterisation_witness :
  layout seeded_ct
  /\ (operator_index seeded_ct 32 = Throw OutOfRange <-> 2 * 8 * 2 <= 32).
Proof.
  split; [exact layout_seeded_ct |].
  exact (proj1 (operator_index_characterisation seeded_ct 32 layout_seeded_ct)).
Defined.

(** ** Overflow of the offset computations *)

(** Outside the data model.  [sizeCapacity] multiplies with the built-in
    [size_t] product and has no check of its own.  On [wide_ct], which no
    parameter set and no call produces, [degree * modulus_count] is
    [2^64 + 2]: the accessor [data] refuses it with [Overflow], while
    [sizeCapacity] takes it modulo [2^64] and answers 4 / 2 = 2. *)
Lemma sizeCapacity_wraps_silently :
  util.size_t_max < poly_modulus_degree_ wide_ct * coeff_modulus_size_ wide_ct
  /\ data wide_ct 0 = Throw Overflow
  /\ sizeCapacity wide_ct = 2.
Proof. repeat split. Qed.





(** ** Reserve and resize: outcomes *)

Section CallOutcomes.

Import CiphertextImpl.

Lemma mul_safe3_cases (a b c : N) :
  (mul_safe3 a b c = Throw Overflow /\ util.size_t_max < a * b * c \/ 
   mul_safe3 a b c = Throw Overflow /\ util.size_t_max < a * b)
  \/ (mul_safe3 a b c = Ret (a * b * c)
      /\ a * b <= util.size_t_max /\ a * b * c <= util.size_t_max).
Proof.
  unfold mul_safe3, util.mul_safe.
  destruct (N.ltb_spec util.size_t_max (a * b)); cbn; [auto |].
  destruct (N.ltb_spec util.size_t_max (a * b * c)); auto.
Qed.

(** A call of [reserveInternal] either throws with the state as it was, or
    returns after writing the allocation and the two parameter fields. *)
Lemma reserveInternal_cases (n d k : N) (c : Ciphertext.t) :
  (exists e, reserveInternal n d k c = (Throw e, c))
  \/ (2 <= n /\ n * d * k <= util.size_t_max /\ mismatch c d k = false
      /\ reserveInternal n d k c
         = (Ret tt, with_allocation d k (HostDynamicArray.reserve (data_ c) (n * d * k)) c)).
Proof.
  unfold reserveInternal, require, SEAL_CIPHERTEXT_SIZE_MIN.
  unfold mbind, M_bind, mret, M_ret, lift, get, modify, throw.
  destruct (N.leb_spec 2 n) as [Hn | Hn]; [| eauto].
  destruct (mul_safe3_cases n d k) as [[[-> _] | [-> _]] | (-> & _ & Hfit)]; [eauto | eauto |].
  destruct (mismatch c d k) eqn:Hmis; cbn; [eauto |].
  right. auto.
Qed.

Lemma resizeInternal_cases (n d k : N) (c : Ciphertext.t) :
  (exists e, resizeInternal n d k c = (Throw e, c))
  \/ (2 <= n /\ n * d * k <= util.size_t_max /\ mismatch c d k = false
      /\ resizeInternal n d k c
         = (Ret tt,
            with_size n
              (HostDynamicArray.resize
                 (HostDynamicArray.reserve (data_ c) (n * d * k)) (n * d * k))
              (with_allocation d k
                 (HostDynamicArray.reserve (data_ c) (n * d * k)) c))).
Proof.
  unfold resizeInternal. cbv beta delta [mbind M_bind].
  unfold require, SEAL_CIPHERTEXT_SIZE_MIN, mret, M_ret, lift, throw, modify.
  destruct (N.leb_spec 2 n) as [Hn | Hn]; [| eauto].
  destruct (mul_safe3_cases n d k) as [[[-> _] | [-> _]] | (-> & _ & Hfit)];
    cbn [overflow_as_invalid]; [eauto | eauto |].
  destruct (reserveInternal_cases n d k c) as [[e ->] | (_ & _ & Hmis & ->)]; [eauto |].
  right. auto.
Qed.

Lemma reserve_cases (context : SEALContext) (p : ParmsID) (n : N) (c : Ciphertext.t) :
  (exists e, reserve context p n c = (Throw e, c))
  \/ (exists d k, get_context_data context p = Some (d, k)
      /\ 2 <= n /\ n * d * k <= util.size_t_max /\ mismatch c d k = false
      /\ reserve context p n c
         = (Ret tt,
            set_parmsID p
              (with_allocation d k
                 (HostDynamicArray.reserve (data_ c) (n * d * k)) c))).
Proof.
  unfold reserve. destruct (get_context_data context p) as [[d k] |].
  - unfold mbind, M_bind, modify.
    destruct (reserveInternal_cases n d k c) as [[e ->] | (H1 & H2 & H3 & ->)]; [eauto |].
    right. exists d, k. auto.
  - left. exists InvalidArgument. reflexivity.
Qed.

Lemma resize_cases (context : SEALContext) (p : ParmsID) (n : N) (c : Ciphertext.t) :
  (exists e, resize context p n c = (Throw e, c))
  \/ (exists d k, get_context_data context p = Some (d, k)
      /\ 2 <= n /\ n * d * k <= util.size_t_max /\ mismatch c d k = false
      /\ resize context p n c
         = (Ret tt,
            set_parmsID p
              (with_size n
                 (HostDynamicArray.resize
                    (HostDynamicArray.reserve (data_ c) (n * d * k)) (n * d * k))
                 (with_allocation d k
                    (HostDynamicArray.reserve (data_ c) (n * d * k)) c)))).
Proof.
  unfold resize. destruct (get_context_data context p) as [[d k] |].
  - unfold mbind, M_bind, modify.
    destruct (resizeInternal_cases n d k c) as [[e ->] | (H1 & H2 & H3 & ->)]; [eauto |].
    right. exists d, k. auto.
  - left. exists InvalidArgument. reflexivity.
Qed.

(** Every call either throws and leaves the state as it was, or returns;
    an assignment can also be given an index outside the allocation. *)
Lemma run_throws_or_returns (context : SEALContext) (op : call) (c : Ciphertext.t) :
  (exists e, run context op c = (Throw e, c))
  \/ (exists c', run context op c = (Ret tt, c'))
  \/ (run context op c = (Undefined, c) /\ exists j w, op = CallAssign j w).
Proof.
  destruct op as [p n | n | n | p n | n | n | | | | j w | p | b | x | x]; cbn [run].
  - destruct (reserve_cases context p n c) as [H | (d & k & _ & _ & _ & _ & H)]; eauto.
  - unfold reserve_first.
    destruct (reserve_cases context (firstParmsID context) n c)
      as [H | (d & k & _ & _ & _ & _ & H)]; eauto.
  - unfold reserve_current, mbind, M_bind, get.
    destruct (reserveInternal_cases n (poly_modulus_degree_ c) (coeff_modulus_size_ c) c)
      as [H | (_ & _ & _ & H)]; eauto.
  - destruct (resize_cases context p n c) as [H | (d & k & _ & _ & _ & _ & H)]; eauto.
  - unfold resize_first.
    destruct (resize_cases context (firstParmsID context) n c)
      as [H | (d & k & _ & _ & _ & _ & H)]; eauto.
  - unfold resize_current, mbind, M_bind, get.
    destruct (resizeInternal_cases n (poly_modulus_degree_ c) (coeff_modulus_size_ c) c)
      as [H | (_ & _ & _ & H)]; eauto.
  - right; left. eexists. reflexivity.
  - right; left. eexists. reflexivity.
  - right; left. eexists. reflexivity.
  - unfold assign. destruct (operator_index_assign c j w); eauto 6.
  - right; left. eexists. reflexivity.
  - right; left. eexists. reflexivity.
  - right; left. eexists. reflexivity.
  - right; left. eexists. reflexivity.
Qed.

End CallOutcomes.

(** ** Failed calls *)

Section FailedCalls.

Import CiphertextImpl.

Variable context : SEALContext.

Lemma unknown_parms_id_fails (p : ParmsID) (n : N) (c : Ciphertext.t) :
  get_context_data context p = None ->
  reserve context p n c = (Throw InvalidArgument, c)
  /\ resize context p n c = (Throw InvalidArgument, c).
Proof. intros H. unfold reserve, resize. rewrite H. split; reflexivity. Qed.

Lemma below_minimum_fails (p : ParmsID) (n : N) (c : Ciphertext.t) :
  n < 2 ->
  reserve context p n c = (Throw InvalidArgument, c)
  /\ resize context p n c = (Throw InvalidArgument, c).
Proof.
  intros Hn. unfold reserve, resize.
  destruct (get_context_data context p) as [[d k] |]; [| split; reflexivity].
  unfold resizeInternal, reserveInternal. cbv beta delta [mbind M_bind].
  unfold require, SEAL_CIPHERTEXT_SIZE_MIN.
  destruct (N.leb_spec 2 n); [lia |]. split; reflexivity.
Qed.

Lemma overflow_fails (p : ParmsID) (n d k : N) (c : Ciphertext.t) :
  get_context_data context p = Some (d, k) -> 2 <= n ->
  util.size_t_max < n * d * k ->
  reserve context p n c = (Throw Overflow, c)
  /\ resize context p n c = (Throw InvalidArgument, c).
Proof.
  intros Hp Hn Hover. unfold reserve, resize. rewrite Hp.
  unfold resizeInternal, reserveInternal. cbv beta delta [mbind M_bind].
  unfold require, SEAL_CIPHERTEXT_SIZE_MIN, lift, mret, M_ret.
  destruct (N.leb_spec 2 n); [| lia].
  destruct (mul_safe3_cases n d k) as [[[-> _] | [-> _]] | (_ & _ & Hfit)];
    [split; reflexivity | split; reflexivity | lia].
Qed.

End FailedCalls.

(** C2.  A reserve or resize call that does not return has thrown, and the
    state after it (parameter identifier, domain flag, size, degree, modulus
    count, scale, correction factor and buffer) is the state before it.  The
    three causes of failure are an identifier unknown to the registry, a
    capacity or size below 2, and an overflowing [n * degree * modulus_count];
    each leaves the state as it was. *)
Theorem failed_call_leaves_state
    (context : SEALContext) (op : call) (c : Ciphertext.t) :
  (fst (run context op c) <> Ret tt ->
   snd (run context op c) = c
   /\ ((forall j w, op <> CallAssign j w) -> exists e, fst (run context op c) = Throw e))
  /\ (forall p n, get_context_data context p = None ->
        run context (CallReserve p n) c = (Throw InvalidArgument, c)
        /\ run context (CallResize p n) c = (Throw InvalidArgument, c))
  /\ (forall p n, n < 2 ->
        run context (CallReserve p n) c = (Throw InvalidArgument, c)
        /\ run context (CallResize p n) c = (Throw InvalidArgument, c))
  /\ (forall p n d k, get_context_data context p = Some (d, k) -> 2 <= n ->
        util.size_t_max < n * d * k ->
        run context (CallReserve p n) c = (Throw Overflow, c)
        /\ run context (CallResize p n) c = (Throw InvalidArgument, c)).
Proof.
  split; [| split; [| split]].
  - intros Hfail.
    destruct (run_throws_or_returns context op c)
      as [[e H] | [[c' H] | [H (j & w & ->)]]]; rewrite H in *; cbn [fst snd] in *.
    + eauto.
    + contradiction.
    + split; [reflexivity |]. intros Hne. destruct (Hne j w eq_refl).
  - intros p n. apply unknown_parms_id_fails.
  - intros p n. apply below_minimum_fails.
  - intros p n d k. apply overflow_fails.
Qed.

Lemma failed_call_leaves_state_witness :
  fst (run example_context (CallReserve (1, 2, 3, 4) 0x1000000000000000) Ciphertext)
    = Throw Overflow
  /\ snd (run example_context (CallReserve (1, 2, 3, 4) 0x1000000000000000) Ciphertext)
     = Ciphertext.
Proof.
  split; [reflexivity |].
  apply (proj1 (failed_call_leaves_state example_context
                  (CallReserve (1, 2, 3, 4) 0x1000000000000000) Ciphertext)).
  discriminate.
Defined.

(** ** Capacity and size *)

Section BufferSteps.

Variable a : HostDynamicArray.t.
Hypothesis Hsize : HostDynamicArray.size a <= HostDynamicArray.capacity a.

Lemma reserve_size (n : N) :
  HostDynamicArray.size (HostDynamicArray.reserve a n) = HostDynamicArray.size a.
Proof.
  unfold HostDynamicArray.reserve.
  destruct (HostDynamicArray.capacity a <? n); reflexivity.
Qed.

Lemma reserve_capacity (n : N) :
  HostDynamicArray.capacity (HostDynamicArray.reserve a n)
    = N.max (HostDynamicArray.capacity a) n.
Proof.
  unfold HostDynamicArray.reserve, HostDynamicArray.capacity, HostDynamicArray.contents in *.
  destruct (N.ltb_spec (N.of_nat (length (HostDynamicArray.mem a))) n); cbn [HostDynamicArray.mem].
  - rewrite length_app, length_take, length_replicate. lia.
  - lia.
Qed.

Lemma resize_size (n : N) :
  HostDynamicArray.size (HostDynamicArray.resize a n) = n.
Proof.
  unfold HostDynamicArray.resize.
  destruct (n <=? HostDynamicArray.size a); reflexivity.
Qed.

Lemma resize_capacity (n : N) :
  n <= HostDynamicArray.capacity a ->
  HostDynamicArray.capacity (HostDynamicArray.resize a n) = HostDynamicArray.capacity a.
Proof.
  unfold HostDynamicArray.resize, HostDynamicArray.capacity in *. intros Hn.
  destruct (N.leb_spec n (HostDynamicArray.size a)); cbn [HostDynamicArray.mem].
  - reflexivity.
  - rewrite !length_app, length_take, length_replicate, length_drop. lia.
Qed.

End BufferSteps.

Section Soundness.

Import CiphertextImpl.

Lemma mismatch_false (c : Ciphertext.t) (d k : N) :
  mismatch c d k = false ->
  size_ c = 0 \/ (d = poly_modulus_degree_ c /\ k = coeff_modulus_size_ c).
Proof.
  unfold mismatch. intros H.
  destruct (N.ltb_spec 0 (size_ c)); [| left; lia].
  destruct (N.eqb_spec d (poly_modulus_degree_ c)); [| discriminate].
  destruct (N.eqb_spec k (coeff_modulus_size_ c)); [| discriminate].
  auto.
Qed.

Lemma layout_reserve_step (c : Ciphertext.t) (n d k : N) :
  layout c -> 2 <= n -> n * d * k <= util.size_t_max -> mismatch c d k = false ->
  layout (with_allocation d k (HostDynamicArray.reserve (data_ c) (n * d * k)) c).
Proof.
  intros (Hlen & Hcap & Hcmax & Hpw) Hn Hfit Hmis.
  apply mismatch_false in Hmis.
  unfold layout in *. cbn.
  rewrite reserve_size, (reserve_capacity _ Hcap).
  repeat split.
  - destruct Hmis as [Hz | [-> ->]]; [| exact Hlen].
    rewrite Hlen, Hz. reflexivity.
  - lia.
  - lia.
  - nia.
Qed.

Lemma layout_resize_step (c : Ciphertext.t) (n d k : N) :
  layout c -> 2 <= n -> n * d * k <= util.size_t_max -> mismatch c d k = false ->
  layout (with_size n
            (HostDynamicArray.resize
               (HostDynamicArray.reserve (data_ c) (n * d * k)) (n * d * k))
            (with_allocation d k (HostDynamicArray.reserve (data_ c) (n * d * k)) c)).
Proof.
  intros (Hlen & Hcap & Hcmax & Hpw) Hn Hfit Hmis.
  unfold layout in *. cbn.
  assert (HostDynamicArray.size (HostDynamicArray.reserve (data_ c) (n * d * k))
          <= HostDynamicArray.capacity (HostDynamicArray.reserve (data_ c) (n * d * k)))
    as Hcap'.
  { rewrite reserve_size, (reserve_capacity _ Hcap). lia. }
  rewrite resize_size, (resize_capacity _ Hcap').
  2: { rewrite (reserve_capacity _ Hcap). lia. }
  rewrite (reserve_capacity _ Hcap).
  repeat split; try lia. nia.
Qed.

(** The layout survives every call, whatever its arguments. *)
Lemma layout_run (context : SEALContext) (c : Ciphertext.t) (op : call) :
  layout c -> layout (snd (run context op c)).
Proof.
  intros Hl.
  destruct op as [p n | n | n | p n | n | n | | | | j w | p | b | x | x]; cbn [run].
  - destruct (reserve_cases context p n c)
      as [[e ->] | (d & k & _ & H1 & H2 & H3 & ->)]; [exact Hl |].
    cbn [snd]. apply (layout_reserve_step c n d k); assumption.
  - unfold reserve_first.
    destruct (reserve_cases context (firstParmsID context) n c)
      as [[e ->] | (d & k & _ & H1 & H2 & H3 & ->)]; [exact Hl |].
    cbn [snd]. apply (layout_reserve_step c n d k); assumption.
  - unfold reserve_current. cbv beta delta [mbind M_bind get].
    destruct (reserveInternal_cases n (poly_modulus_degree_ c) (coeff_modulus_size_ c) c)
      as [[e ->] | (H1 & H2 & H3 & ->)]; [exact Hl |].
    cbn [snd]. apply layout_reserve_step; assumption.
  - destruct (resize_cases context p n c)
      as [[e ->] | (d & k & Hp & H1 & H2 & H3 & ->)]; [exact Hl |].
    cbn [snd]. apply (layout_resize_step c n d k); assumption.
  - unfold resize_first.
    destruct (resize_cases context (firstParmsID context) n c)
      as [[e ->] | (d & k & Hp & H1 & H2 & H3 & ->)]; [exact Hl |].
    cbn [snd]. apply (layout_resize_step c n d k); assumption.
  - unfold resize_current. cbv beta delta [mbind M_bind get].
    destruct (resizeInternal_cases n (poly_modulus_degree_ c) (coeff_modulus_size_ c) c)
      as [[e ->] | (H1 & H2 & H3 & ->)]; [exact Hl |].
    cbn [snd]. apply layout_resize_step; assumption.
  - exact layout_default.
  - exact Hl.
  - exact Hl.
  - unfold assign. destruct (operator_index_assign c j w) as [c' | e |] eqn:Hw;
      cbn [snd]; [| exact Hl | exact Hl].
    exact (assign_layout _ _ _ _ Hl Hw).
  - exact Hl.
  - exact Hl.
  - exact Hl.
  - exact Hl.
Qed.


(** The number of polynomials after a call, and the words in each. *)
Lemma positive_run (context : SEALContext) (c : Ciphertext.t) (op : call) :
  (0 < size_ c -> 0 < poly_words c) -> parameterised context c op ->
  0 < size_ (snd (run context op c)) -> 0 < poly_words (snd (run context op c)).
Proof.
  intros Hpos Hok.
  destruct op as [p n | n | n | p n | n | n | | | | j w | p | b | x | x];
    cbn [run parameterised] in *.
  - destruct (reserve_cases context p n c)
      as [[e ->] | (d & k & _ & H1 & H2 & H3 & ->)]; [exact Hpos |].
    cbn. intros Hs. apply mismatch_false in H3 as [Hz | [-> ->]]; [lia | auto].
  - unfold reserve_first.
    destruct (reserve_cases context (firstParmsID context) n c)
      as [[e ->] | (d & k & _ & H1 & H2 & H3 & ->)]; [exact Hpos |].
    cbn. intros Hs. apply mismatch_false in H3 as [Hz | [-> ->]]; [lia | auto].
  - unfold reserve_current. cbv beta delta [mbind M_bind get].
    destruct (reserveInternal_cases n (poly_modulus_degree_ c) (coeff_modulus_size_ c) c)
      as [[e ->] | (H1 & H2 & H3 & ->)]; [exact Hpos |].
    cbn. exact Hpos.
  - destruct (resize_cases context p n c)
      as [[e ->] | (d & k & Hp & H1 & H2 & H3 & ->)]; [exact Hpos |].
    cbn. intros _. exact (Hok d k Hp).
  - unfold resize_first.
    destruct (resize_cases context (firstParmsID context) n c)
      as [[e ->] | (d & k & Hp & H1 & H2 & H3 & ->)]; [exact Hpos |].
    cbn. intros _. exact (Hok d k Hp).
  - unfold resize_current. cbv beta delta [mbind M_bind get].
    destruct (resizeInternal_cases n (poly_modulus_degree_ c) (coeff_modulus_size_ c) c)
      as [[e ->] | (H1 & H2 & H3 & ->)]; [exact Hpos |].
    cbn. intros _. exact Hok.
  - cbn. lia.
  - exact Hpos.
  - exact Hpos.
  - unfold assign. destruct (operator_index_assign c j w) as [c' | e |] eqn:Hw;
      cbn [snd]; [| exact Hpos | exact Hpos].
    apply assign_inv in Hw as (_ & _ & _ & _ & Hs' & Hd & Hk & _).
    unfold poly_words. rewrite Hs', Hd, Hk. exact Hpos.
  - exact Hpos.
  - exact Hpos.
  - exact Hpos.
  - exact Hpos.
Qed.

Lemma sound_default : sound Ciphertext.
Proof. split; [exact layout_default |]. cbn. lia. Qed.

Lemma sound_run (context : SEALContext) (c : Ciphertext.t) (op : call) :
  sound c -> parameterised context c op -> sound (snd (run context op c)).
Proof.
  intros [Hl Hpos] Hok. split.
  - apply layout_run, Hl.
  - apply positive_run; assumption.
Qed.

Lemma sound_capacity (c : Ciphertext.t) : sound c -> size c <= sizeCapacity c.
Proof.
  intros [(Hlen & Hcap & Hcmax & Hpw) Hpos].
  unfold size, sizeCapacity, util.wrap, poly_words in *.
  rewrite N.mod_small by (unfold util.size_t_max in Hpw; lia).
  destruct (N.eqb_spec (poly_modulus_degree_ c * coeff_modulus_size_ c) 0) as [E | E].
  - destruct (N.eq_dec (size_ c) 0); lia.
  - apply N.div_le_lower_bound; [assumption |]. lia.
Qed.

End Soundness.

(** C8, as stated, fails: [resize(2)] on a default-constructed ciphertext
    lays out two polynomials of zero words each; the state has size 2 and
    capacity 0. *)
Lemma resize_without_parameters_breaks_capacity :
  reachable example_context sized_without_parameters
  /\ size sized_without_parameters = 2
  /\ sizeCapacity sized_without_parameters = 0.
Proof.
  split; [| split; reflexivity].
  apply (reach_call _ example_context Ciphertext (CallResizeCurrent 2)).
  - apply reach_default.
  - exact I.
Qed.

(** C8, amended.  [sizeCapacity() >= size()] holds for the default-constructed
    ciphertext and is preserved by release, copy, move, every reserve and
    every resize whose parameter set has [degree * modulus_count > 0]: it
    holds in every state reached through such calls. *)
Theorem capacity_bounds_size (context : SEALContext) (c : Ciphertext.t) :
  reachable_by (parameterised context) context c -> size c <= sizeCapacity c.
Proof.
  intros Hr. apply sound_capacity.
  induction Hr as [| c op _ IH Hok].
  - exact sound_default.
  - apply sound_run; assumption.
Qed.

Lemma capacity_bounds_size_witness :
  reachable_by (parameterised example_context) example_context sized_ct
  /\ size sized_ct <= sizeCapacity sized_ct.
Proof.
  assert (reachable_by (parameterised example_context) example_context sized_ct) as Hr.
  { apply (reach_call _ example_context Ciphertext (CallResizeFirst 2)).
    - apply reach_default.
    - intros d k H. vm_compute in H. injection H as <- <-. reflexivity. }
  split; [exact Hr |].
  exact (capacity_bounds_size example_context sized_ct Hr).
Defined.

(** ** No computation wraps *)



(** * Further properties of the header *)

(** ** Polynomials inside the flat buffer *)

Lemma layout_positive_words (c : Ciphertext.t) :
  layout c -> HostDynamicArray.size (data_ c) <> 0 -> 0 < poly_words c.
Proof.
  intros (Hlen & _) Hne. unfold poly_words.
  destruct (N.eq_dec (poly_modulus_degree_ c * coeff_modulus_size_ c) 0) as [E | E]; [| lia].
  exfalso. apply Hne. rewrite Hlen, <- N.mul_assoc, E. lia.
Qed.

Lemma layout_data_start (c : Ciphertext.t) (i : N) :
  layout c -> 0 < poly_words c -> i < size_ c ->
  data c i = Ret (at_offset (i * poly_words c)).
Proof.
  intros Hl Hpos Hi.
  destruct (layout_offset c i Hl Hi) as [Hoff Hmax].
  pose proof Hl as (_ & _ & _ & Hpw). fold (poly_words c) in Hpw.
  apply data_start; try assumption. lia.
Qed.

Lemma layout_read (c : Ciphertext.t) (j : N) :
  layout c -> j < HostDynamicArray.size (data_ c) ->
  exists w, HostDynamicArray.mem (data_ c) !! N.to_nat j = Some w
            /\ operator_index c j = Ret w.
Proof.
  intros (_ & Hcap & _) Hj. unfold HostDynamicArray.capacity in Hcap.
  destruct (lookup_lt_is_Some_2 (HostDynamicArray.mem (data_ c)) (N.to_nat j))
    as [w Hw]; [lia |].
  exists w. split; [exact Hw |].
  unfold operator_index, HostDynamicArray.at_.
  destruct (N.leb_spec (HostDynamicArray.size (data_ c)) j); [lia |].
  rewrite Hw. reflexivity.
Qed.

(** Word [k] of polynomial [i], read through the pointer that [data i]
    returns, is the flat coefficient [i * words + k]. *)
Lemma deref_data (c : Ciphertext.t) (i k : N) :
  layout c -> i < size_ c -> k < poly_words c ->
  exists w, data c i = Ret (at_offset (i * poly_words c))
            /\ HostDynamicArray.deref (data_ c) (at_offset (i * poly_words c)) k = Ret w
            /\ operator_index c (i * poly_words c + k) = Ret w.
Proof.
  intros Hl Hi Hk.
  destruct (layout_offset c i Hl Hi) as [Hoff Hmax].
  destruct (layout_read c (i * poly_words c + k) Hl ltac:(lia)) as (w & Hw & Hr).
  exists w. split; [apply layout_data_start; [assumption | lia | assumption] |].
  split; [| exact Hr].
  unfold HostDynamicArray.deref. rewrite Hw. reflexivity.
Qed.

(** X1.  In a laid-out state with a positive number of words per polynomial,
    polynomial 0 starts where [data()] points, and for [i < i' < size] the
    block of polynomial [i] ends at or before the start of polynomial [i'],
    which itself lies inside the logical buffer; consecutive polynomials are
    exactly [degree * modulus_count] words apart. *)
Theorem polynomials_are_contiguous (c : Ciphertext.t) (i i' : N) :
  layout c -> 0 < poly_modulus_degree_ c * coeff_modulus_size_ c ->
  i < i' -> i' < size_ c ->
  data c 0 = Ret (data_begin c)
  /\ exists o o',
       data c i = Ret (at_offset o) /\ data c i' = Ret (at_offset o')
       /\ o + poly_modulus_degree_ c * coeff_modulus_size_ c <= o'
       /\ o' + poly_modulus_degree_ c * coeff_modulus_size_ c
          <= HostDynamicArray.size (data_ c)
       /\ (i' = i + 1 -> o' = o + poly_modulus_degree_ c * coeff_modulus_size_ c).
Proof.
  intros Hl Hpos Hlt Hi'. fold (poly_words c) in *.
  destruct (layout_offset c i' Hl Hi') as [Hoff' _].
  split.
  - rewrite (layout_data_start c 0 Hl Hpos) by lia. reflexivity.
  - exists (i * poly_words c), (i' * poly_words c).
    split; [apply layout_data_start; [assumption | assumption | lia] |].
    split; [apply layout_data_start; assumption |].
    split; [nia |]. split; [exact Hoff' |].
    intros ->. lia.
Qed.

Lemma polynomials_are_contiguous_witness :
  data busy_ct 0 = Ret (at_offset 0)
  /\ exists o o', data busy_ct 1 = Ret (at_offset o) /\ data busy_ct 2 = Ret (at_offset o')
                  /\ o + 4 * 1 <= o'.
Proof.
  destruct (polynomials_are_contiguous busy_ct 1 2 layout_busy_ct)
    as (H0 & o & o' & H1 & H2 & H3 & _); try reflexivity.
  split; [exact H0 |]. exists o, o'. auto.
Defined.

(** X2.  In a laid-out state, for [i < size] and [k < degree * modulus_count]
    the word read at position [k] through the pointer [data i] is the
    coefficient that [operator[]] returns at flat index
    [i * degree * modulus_count + k]; both reads succeed. *)
Theorem polynomial_pointer_reads_flat_coefficient (c : Ciphertext.t) (i k : N) :
  layout c -> i < size_ c -> k < poly_modulus_degree_ c * coeff_modulus_size_ c ->
  exists p w,
    data c i = Ret p
    /\ HostDynamicArray.deref (data_ c) p k = Ret w
    /\ operator_index c (i * (poly_modulus_degree_ c * coeff_modulus_size_ c) + k) = Ret w.
Proof.
  intros Hl Hi Hk.
  destruct (deref_data c i k Hl Hi Hk) as (w & Hd & Hr & Ho).
  exists (at_offset (i * poly_words c)), w. auto.
Qed.

Lemma polynomial_pointer_reads_flat_coefficient_witness :
  exists p w, data busy_ct 2 = Ret p
              /\ HostDynamicArray.deref (data_ busy_ct) p 2 = Ret w
              /\ operator_index busy_ct (2 * (4 * 1) + 2) = Ret w.
Proof.
  apply (polynomial_pointer_reads_flat_coefficient busy_ct 2 2 layout_busy_ct);
    reflexivity.
Defined.

(** X3.  In a laid-out state every flat index [j] below the logical length
    belongs to exactly the polynomial [j / (degree * modulus_count)], which is
    below [size], at position [j mod (degree * modulus_count)]: reading that
    position through [data] gives what [operator[] j] gives. *)
Theorem flat_index_decomposes (c : Ciphertext.t) (j : N) :
  layout c -> j < HostDynamicArray.size (data_ c) ->
  j / (poly_modulus_degree_ c * coeff_modulus_size_ c) < size_ c
  /\ j mod (poly_modulus_degree_ c * coeff_modulus_size_ c)
     < poly_modulus_degree_ c * coeff_modulus_size_ c
  /\ exists p w,
       data c (j / (poly_modulus_degree_ c * coeff_modulus_size_ c)) = Ret p
       /\ HostDynamicArray.deref (data_ c) p
            (j mod (poly_modulus_degree_ c * coeff_modulus_size_ c)) = Ret w
       /\ operator_index c j = Ret w.
Proof.
  intros Hl Hj.
  assert (0 < poly_words c) as Hpos by (apply layout_positive_words; [assumption | lia]).
  pose proof Hl as (Hlen & _). fold (poly_words c) in *.
  assert (j / poly_words c < size_ c) as Hi.
  { apply N.Div0.div_lt_upper_bound.
    rewrite Hlen, <- N.mul_assoc in Hj. fold (poly_words c) in Hj. lia. }
  assert (j mod poly_words c < poly_words c) as Hk by (apply N.mod_lt; lia).
  split; [exact Hi |]. split; [exact Hk |].
  destruct (deref_data c _ _ Hl Hi Hk) as (w & Hd & Hr & Ho).
  exists (at_offset (j / poly_words c * poly_words c)), w.
  split; [exact Hd |]. split; [exact Hr |].
  rewrite <- Ho. f_equal.
  rewrite (N.div_mod j (poly_words c)) at 1 by lia. lia.
Qed.

Lemma flat_index_decomposes_witness :
  10 / (4 * 1) < 3 /\ operator_index busy_ct 10 = Ret 9.
Proof.
  destruct (flat_index_decomposes busy_ct 10 layout_busy_ct) as (Hi & _ & _);
    [reflexivity |].
  split; [exact Hi | reflexivity].
Defined.

(** ** Writing and reading coefficients *)

Lemma assign_succeeds (c : Ciphertext.t) (j w : N) :
  j < HostDynamicArray.size (data_ c) -> j < HostDynamicArray.capacity (data_ c) ->
  operator_index_assign c j w
    = Ret {| parms_id_ := parms_id_ c;
             is_ntt_form_ := is_ntt_form_ c;
             size_ := size_ c;
             poly_modulus_degree_ := poly_modulus_degree_ c;
             coeff_modulus_size_ := coeff_modulus_size_ c;
             scale_ := scale_ c;
             correction_factor_ := correction_factor_ c;
             data_ := {| HostDynamicArray.size := HostDynamicArray.size (data_ c);
                         HostDynamicArray.mem :=
                           <[N.to_nat j := w]> (HostDynamicArray.mem (data_ c)) |} |}.
Proof.
  intros Hs Hc. unfold operator_index_assign, HostDynamicArray.set_at.
  destruct (N.leb_spec (HostDynamicArray.size (data_ c)) j); [lia |].
  destruct (N.leb_spec (HostDynamicArray.capacity (data_ c)) j); [lia |].
  reflexivity.
Qed.

Lemma assign_read_other (c c' : Ciphertext.t) (j j' w : N) :
  j' <> j -> operator_index_assign c j w = Ret c' ->
  operator_index c' j' = operator_index c j'.
Proof.
  intros Hne Hw.
  apply assign_inv in Hw as (_ & _ & _ & _ & _ & _ & _ & _ & _ & Hds & Hmem).
  unfold operator_index, HostDynamicArray.at_. rewrite Hds, Hmem.
  rewrite list_lookup_insert_ne by lia. reflexivity.
Qed.

(** X4.  In a laid-out state the assignment [c[j] = w] fails with
    [OutOfRange] exactly when [j] is at or past the logical length; otherwise
    it takes place, after it [c[j]] reads [w], every other index reads what
    it read before, the parameter identifier, domain flag, size, degree,
    modulus count, scale, correction factor and capacity are unchanged, and
    the state is still laid out. *)
Theorem coefficient_write_round_trip (c : Ciphertext.t) (j w : N) :
  layout c ->
  (operator_index_assign c j w = Throw OutOfRange
     <-> HostDynamicArray.size (data_ c) <= j)
  /\ (j < HostDynamicArray.size (data_ c) ->
      exists c', operator_index_assign c j w = Ret c'
                 /\ layout c'
                 /\ operator_index c' j = Ret w
                 /\ (forall j', j' <> j -> operator_index c' j' = operator_index c j')
                 /\ parmsID c' = parmsID c
                 /\ isNttForm c' = isNttForm c
                 /\ size c' = size c
                 /\ polyModulusDegree c' = polyModulusDegree c
                 /\ coeffModulusSize c' = coeffModulusSize c
                 /\ scale c' = scale c
                 /\ correctionFactor c' = correctionFactor c
                 /\ sizeCapacity c' = sizeCapacity c).
Proof.
  intros Hl. pose proof Hl as (_ & Hcap & _).
  split.
  - unfold operator_index_assign, HostDynamicArray.set_at.
    destruct (N.leb_spec (HostDynamicArray.size (data_ c)) j) as [Hge | Hlt].
    + cbn. tauto.
    + destruct (N.leb_spec (HostDynamicArray.capacity (data_ c)) j); [lia |].
      cbn. split; [discriminate | lia].
  - intros Hj.
    pose proof (assign_succeeds c j w Hj ltac:(lia)) as Hw.
    eexists. split; [exact Hw |].
    split; [exact (assign_layout _ _ _ _ Hl Hw) |].
    split; [exact (assign_read_same _ _ _ _ Hw) |].
    split; [intros j' Hne; exact (assign_read_other _ _ _ _ _ Hne Hw) |].
    repeat split.
    unfold sizeCapacity, HostDynamicArray.capacity. cbn.
    rewrite length_insert. reflexivity.
Qed.

Lemma coefficient_write_round_trip_witness :
  exists c', operator_index_assign busy_ct 5 42 = Ret c' /\ operator_index c' 5 = Ret 42.
Proof.
  destruct (proj2 (coefficient_write_round_trip busy_ct 5 42 layout_busy_ct))
    as (c' & Hw & _ & Hr & _); [reflexivity |].
  exists c'. auto.
Defined.

(** X5.  Assignments compose like array updates: a second assignment to the
    same index overrides the first, and two assignments to different indices
    give the same state in either order. *)
Theorem coefficient_writes_compose (c c1 c2 : Ciphertext.t) (j1 j2 w1 w2 : N) :
  operator_index_assign c j1 w1 = Ret c1 ->
  operator_index_assign c1 j2 w2 = Ret c2 ->
  (j1 = j2 -> operator_index_assign c j2 w2 = Ret c2)
  /\ (j1 <> j2 ->
      exists c', operator_index_assign c j2 w2 = Ret c'
                 /\ operator_index_assign c' j1 w1 = Ret c2).
Proof.
  intros H1 H2.
  pose proof (assign_inv _ _ _ _ H1)
    as (Hs1 & Hc1 & _ & _ & _ & _ & _ & _ & _ & Hds1 & Hmem1).
  pose proof (assign_inv _ _ _ _ H2)
    as (Hs2 & Hc2 & _ & _ & _ & _ & _ & _ & _ & _ & _).
  assert (HostDynamicArray.capacity (data_ c1) = HostDynamicArray.capacity (data_ c))
    as Hcap1 by (unfold HostDynamicArray.capacity; rewrite Hmem1, length_insert; reflexivity).
  rewrite Hds1 in Hs2. rewrite Hcap1 in Hc2.
  rewrite (assign_succeeds c j1 w1 Hs1 Hc1) in H1. injection H1 as <-.
  rewrite assign_succeeds in H2 by (cbn; unfold HostDynamicArray.capacity in *;
                                    cbn; rewrite ?length_insert; lia).
  injection H2 as <-. cbn.
  split.
  - intros ->. rewrite (assign_succeeds c j2 w2 Hs2 Hc2).
    rewrite list_insert_insert_eq. reflexivity.
  - intros Hne. eexists. split; [exact (assign_succeeds c j2 w2 Hs2 Hc2) |].
    rewrite assign_succeeds by (cbn; unfold HostDynamicArray.capacity in *;
                                cbn; rewrite ?length_insert; lia).
    cbn. rewrite list_insert_insert_ne by lia. reflexivity.
Qed.

Lemma coefficient_writes_compose_witness :
  exists c1 c2, operator_index_assign busy_ct 5 42 = Ret c1
                /\ operator_index_assign c1 5 43 = Ret c2
                /\ operator_index_assign busy_ct 5 43 = Ret c2.
Proof.
  eexists. eexists.
  split; [reflexivity |]. split; [reflexivity |].
  refine (proj1 (coefficient_writes_compose busy_ct _ _ 5 5 42 43 _ _) eq_refl);
    reflexivity.
Defined.

(** ** Release *)

(** X6.  Whatever the state, [release] leaves exactly the default-constructed
    ciphertext: afterwards [data i] is the null pointer for every index,
    reading or writing any coefficient fails with [OutOfRange], the capacity
    is 0, and the state is laid out. *)
Theorem release_gives_default_state (c : Ciphertext.t) :
  release c = Ciphertext
  /\ layout (release c)
  /\ sizeCapacity (release c) = 0
  /\ (forall i, data (release c) i = Ret nullptr)
  /\ (forall j, operator_index (release c) j = Throw OutOfRange)
  /\ (forall j w, operator_index_assign (release c) j w = Throw OutOfRange).
Proof.
  split; [reflexivity |].
  split; [exact layout_default |].
  split; [reflexivity |].
  split; [intros i; apply data_null; reflexivity |].
  split.
  - intros j. unfold operator_index, HostDynamicArray.at_. cbn.
    destruct (N.leb_spec 0 j); [reflexivity | lia].
  - intros j w. unfold operator_index_assign, HostDynamicArray.set_at. cbn.
    destruct (N.leb_spec 0 j); [reflexivity | lia].
Qed.

(** ** Capacity *)

(** X7.  [sizeCapacity] is the largest number of polynomials that fit in the
    allocation: with [W] the product [degree * modulus_count] as [size_t]
    arithmetic computes it, [sizeCapacity] is 0 when [W] is 0, and otherwise
    [s <= sizeCapacity] holds exactly for the [s] with [s * W] words inside
    the allocated length; [W] is the exact product whenever that fits. *)
Theorem sizeCapacity_is_largest_fit (c : Ciphertext.t) (s : N) :
  (util.wrap (poly_modulus_degree_ c * coeff_modulus_size_ c) = 0 ->
   sizeCapacity c = 0)
  /\ (0 < util.wrap (poly_modulus_degree_ c * coeff_modulus_size_ c) ->
      (s <= sizeCapacity c
       <-> s * util.wrap (poly_modulus_degree_ c * coeff_modulus_size_ c)
           <= HostDynamicArray.capacity (data_ c)))
  /\ (poly_modulus_degree_ c * coeff_modulus_size_ c <= util.size_t_max ->
      util.wrap (poly_modulus_degree_ c * coeff_modulus_size_ c)
        = poly_modulus_degree_ c * coeff_modulus_size_ c).
Proof.
  split; [| split].
  - intros E. unfold sizeCapacity. rewrite E. reflexivity.
  - intros Hpos. unfold sizeCapacity.
    set (W := util.wrap (poly_modulus_degree_ c * coeff_modulus_size_ c)) in *.
    destruct (N.eqb_spec W 0) as [E | E]; [lia |].
    split.
    + intros Hs.
      apply N.le_trans with (W * (HostDynamicArray.capacity (data_ c) / W)).
      * rewrite (N.mul_comm s W). apply N.mul_le_mono_l. exact Hs.
      * apply N.Div0.mul_div_le.
    + intros Hs. apply N.div_le_lower_bound; [assumption | lia].
  - intros Hfit. unfold util.wrap.
    apply N.mod_small. unfold util.size_t_max in Hfit. lia.
Qed.

Lemma sizeCapacity_is_largest_fit_witness :
  (4 <= sizeCapacity busy_ct <-> 4 * 4 <= 16) /\ sizeCapacity busy_ct = 4.
Proof.
  split; [| reflexivity].
  apply (proj1 (proj2 (sizeCapacity_is_largest_fit busy_ct 4))). reflexivity.
Defined.

(** X8.  In a laid-out state [size() <= sizeCapacity()] holds exactly when
    the ciphertext has no polynomial or a polynomial has at least one word;
    a positive size with [degree * modulus_count = 0] is the one way for the
    size to exceed the capacity. *)
Theorem laid_out_size_within_capacity (c : Ciphertext.t) :
  layout c ->
  (size c <= sizeCapacity c
   <-> size c = 0 \/ 0 < poly_modulus_degree_ c * coeff_modulus_size_ c).
Proof.
  intros Hl. unfold size. split.
  - intros Hle.
    destruct (N.eq_dec (size_ c) 0) as [E | E]; [auto |].
    destruct (N.eq_dec (poly_modulus_degree_ c * coeff_modulus_size_ c) 0) as [E0 | E0];
      [| right; lia].
    exfalso. unfold sizeCapacity, util.wrap in Hle.
    rewrite E0, N.Div0.mod_0_l in Hle. rewrite N.eqb_refl in Hle. lia.
  - intros H. apply sound_capacity. split; [exact Hl |].
    unfold poly_words. destruct H as [H | H]; [lia | auto].
Qed.

Lemma laid_out_size_within_capacity_witness :
  size busy_ct <= sizeCapacity busy_ct <-> size busy_ct = 0 \/ 0 < 4 * 1.
Proof. exact (laid_out_size_within_capacity busy_ct layout_busy_ct). Defined.

(** ** More on transparency *)

Lemma forallb_false_lookup (p : N -> bool) (l : list N) :
  forallb p l = false -> exists i x, l !! i = Some x /\ p x = false.
Proof.
  induction l as [| a l IH]; cbn; [discriminate |].
  destruct (p a) eqn:Ha; cbn.
  - intros H. destruct (IH H) as (i & x & Hi & Hx). exists (S i), x. auto.
  - intros _. exists 0%nat, a. auto.
Qed.

(** X9.  In a laid-out state, when [isTransparent] returns false the
    ciphertext has at least two polynomials and there is a flat index at or
    past [degree * modulus_count], inside the logical buffer, whose
    coefficient is not zero. *)
Theorem non_transparent_has_nonzero (c : Ciphertext.t) :
  layout c -> isTransparent c = Ret false ->
  2 <= size_ c
  /\ exists j w, poly_modulus_degree_ c * coeff_modulus_size_ c <= j
                 /\ j < HostDynamicArray.size (data_ c)
                 /\ operator_index c j = Ret w
                 /\ w <> 0.
Proof.
  intros Hl Hf. fold (poly_words c).
  destruct (N.eq_dec (HostDynamicArray.size (data_ c)) 0) as [E | E].
  { assert (isTransparent c = Ret true) as Ht
      by (apply (isTransparent_iff c Hl); auto).
    rewrite Ht in Hf. discriminate. }
  destruct (N.lt_ge_cases (size_ c) 2) as [Hlt | Hge].
  { assert (isTransparent c = Ret true) as Ht
      by (apply (isTransparent_iff c Hl); auto).
    rewrite Ht in Hf. discriminate. }
  split; [exact Hge |].
  rewrite (isTransparent_scan c Hl E Hge) in Hf. injection Hf as Hf.
  apply forallb_false_lookup in Hf as (i & x & Hi & Hx).
  destruct (decide (i < N.to_nat (HostDynamicArray.size (data_ c) - poly_words c))%nat)
    as [Hlt | Hnlt].
  2: { rewrite lookup_take_ge in Hi by lia. discriminate. }
  rewrite lookup_take_lt in Hi by lia. rewrite lookup_drop in Hi.
  exists (poly_words c + N.of_nat i), x.
  split; [lia |]. split; [lia |]. split.
  - unfold operator_index, HostDynamicArray.at_.
    destruct (N.leb_spec (HostDynamicArray.size (data_ c)) (poly_words c + N.of_nat i));
      [lia |].
    replace (N.to_nat (poly_words c + N.of_nat i))
      with (N.to_nat (poly_words c) + i)%nat by lia.
    rewrite Hi. reflexivity.
  - unfold util.isZero in Hx. apply N.eqb_neq in Hx. exact Hx.
Qed.

Lemma non_transparent_has_nonzero_witness :
  2 <= size_ busy_ct
  /\ exists j w, 4 * 1 <= j /\ j < 12 /\ operator_index busy_ct j = Ret w /\ w <> 0.
Proof.
  apply (non_transparent_has_nonzero busy_ct layout_busy_ct). reflexivity.
Defined.

(** X10.  [isTransparent] looks only at the shape and at the polynomials from
    the second on: two laid-out states with the same size, degree and modulus
    count whose coefficients agree from flat index [degree * modulus_count]
    on get the same answer. *)
Theorem isTransparent_ignores_first_polynomial (c c' : Ciphertext.t) :
  layout c -> layout c' -> same_shape c c' ->
  (forall j, poly_modulus_degree_ c * coeff_modulus_size_ c <= j ->
             operator_index c' j = operator_index c j) ->
  isTransparent c' = isTransparent c.
Proof.
  intros Hl Hl' (Hs & Hd & Hk) Hagree. fold (poly_words c) in Hagree.
  assert (poly_words c' = poly_words c) as Hpw
    by (unfold poly_words; rewrite Hd, Hk; reflexivity).
  assert (HostDynamicArray.size (data_ c') = HostDynamicArray.size (data_ c)) as Hds.
  { destruct Hl as (-> & _), Hl' as (-> & _). rewrite Hs, Hd, Hk. reflexivity. }
  assert (isTransparent c' = Ret true <-> isTransparent c = Ret true) as Hiff.
  { rewrite (isTransparent_iff c Hl), (isTransparent_iff c' Hl'), Hds, Hs, Hpw.
    split; (intros [H | [H | H]]; [auto | auto |]); right; right; intros j Hlo Hhi.
    - rewrite <- Hagree by assumption. auto.
    - rewrite Hagree by assumption. auto. }
  destruct (isTransparent_returns c Hl) as [b Hb].
  destruct (isTransparent_returns c' Hl') as [b' Hb'].
  rewrite Hb, Hb' in *.
  destruct b, b'; try reflexivity.
  - destruct (proj2 Hiff eq_refl). reflexivity.
  - symmetry. apply Hiff. reflexivity.
Qed.

Lemma isTransparent_ignores_first_polynomial_witness :
  exists c', operator_index_assign busy_ct 0 99 = Ret c'
             /\ operator_index c' 0 <> operator_index busy_ct 0
             /\ isTransparent c' = isTransparent busy_ct.
Proof.
  eexists. split; [reflexivity |]. split; [discriminate |].
  apply (isTransparent_ignores_first_polynomial busy_ct _ layout_busy_ct).
  - exact (assign_layout busy_ct _ 0 99 layout_busy_ct eq_refl).
  - repeat split.
  - intros j Hj. apply (assign_read_other busy_ct _ 0 j 99); [| reflexivity].
    intros ->. apply Hj. reflexivity.
Defined.

(** X11.  In a laid-out state, after an assignment [c[j] = w] at or past flat
    index [degree * modulus_count], [isTransparent] returns true exactly when
    [w] is 0 and every other coefficient from that offset on was 0; in
    particular writing 0 never makes a transparent ciphertext opaque. *)
Theorem transparency_after_write (c c' : Ciphertext.t) (j w : N) :
  layout c -> poly_modulus_degree_ c * coeff_modulus_size_ c <= j ->
  operator_index_assign c j w = Ret c' ->
  (isTransparent c' = Ret true
   <-> w = 0
       /\ forall j', poly_modulus_degree_ c * coeff_modulus_size_ c <= j' ->
                     j' < HostDynamicArray.size (data_ c) -> j' <> j ->
                     operator_index c j' = Ret 0)
  /\ (isTransparent c = Ret true -> w = 0 -> isTransparent c' = Ret true).
Proof.
  intros Hl Hj Hw. fold (poly_words c) in *.
  pose proof (assign_layout _ _ _ _ Hl Hw) as Hl'.
  pose proof (assign_read_same _ _ _ _ Hw) as Hsame.
  pose proof (assign_inv _ _ _ _ Hw)
    as (Hjs & _ & _ & _ & Hs & Hd & Hk & _ & _ & Hds & _).
  assert (poly_words c' = poly_words c) as Hpw
    by (unfold poly_words; rewrite Hd, Hk; reflexivity).
  assert (2 <= size_ c) as Hsz.
  { destruct Hl as (Hlen & _). unfold poly_words in Hj.
    destruct (N.lt_ge_cases (size_ c) 2) as [Hlt | Hge]; [| exact Hge].
    assert (size_ c * poly_modulus_degree_ c * coeff_modulus_size_ c
            <= 1 * (poly_modulus_degree_ c * coeff_modulus_size_ c)) by nia.
    lia. }
  assert (isTransparent c' = Ret true
          <-> w = 0 /\ forall j', poly_words c <= j' ->
                                  j' < HostDynamicArray.size (data_ c) -> j' <> j ->
                                  operator_index c j' = Ret 0) as Hiff.
  { rewrite (isTransparent_iff c' Hl'), Hds, Hs, Hpw. split.
    - intros [H | [H | H]]; [lia | lia |]. split.
      + specialize (H j Hj Hjs). rewrite Hsame in H. injection H as ->. reflexivity.
      + intros j' Hlo Hhi Hne.
        rewrite <- (assign_read_other _ _ _ _ _ Hne Hw). auto.
    - intros [-> H]. right; right. intros j' Hlo Hhi.
      destruct (N.eq_dec j' j) as [-> | Hne]; [exact Hsame |].
      rewrite (assign_read_other _ _ _ _ _ Hne Hw). auto. }
  split; [exact Hiff |].
  intros Ht ->. apply Hiff. split; [reflexivity |].
  apply (isTransparent_iff c Hl) in Ht as [H | [H | H]]; [lia | lia |].
  intros j' Hlo Hhi _. auto.
Qed.

Lemma transparency_after_write_witness :
  exists c', operator_index_assign busy_ct 10 0 = Ret c'
             /\ (isTransparent c' = Ret true
                 <-> 0 = 0
                     /\ forall j', 4 * 1 <= j' -> j' < 12 -> j' <> 10 ->
                                   operator_index busy_ct j' = Ret 0).
Proof.
  eexists. split; [reflexivity |].
  refine (proj1 (transparency_after_write busy_ct _ 10 0 layout_busy_ct _ eq_refl)).
  intros H; discriminate H.
Defined.

(** ** Setting and clearing the seed marker *)

(** X12.  In a laid-out state, after an assignment [c[j] = w] the answer of
    [hasSeedMarker] is decided by the written word when the ciphertext has
    two polynomials and [j] is the first word of the second one (true exactly
    for the all-ones word); any other assignment leaves the answer as it
    was. *)
Theorem seed_marker_after_write (c c' : Ciphertext.t) (j w : N) :
  layout c -> operator_index_assign c j w = Ret c' ->
  hasSeedMarker c'
    = if (size_ c =? 2) && (j =? poly_modulus_degree_ c * coeff_modulus_size_ c)
      then Ret (w =? 0xFFFFFFFFFFFFFFFF)
      else hasSeedMarker c.
Proof.
  intros Hl Hw. fold (poly_words c).
  pose proof (assign_layout _ _ _ _ Hl Hw) as Hl'.
  pose proof (assign_read_same _ _ _ _ Hw) as Hsame.
  pose proof (assign_inv _ _ _ _ Hw)
    as (Hjs & _ & _ & _ & Hs & Hd & Hk & _ & _ & Hds & _).
  assert (poly_words c' = poly_words c) as Hpw
    by (unfold poly_words; rewrite Hd, Hk; reflexivity).
  destruct (N.eqb_spec (size_ c) 2) as [E2 | E2]; cbn [andb].
  2: { rewrite (hasSeedMarker_off c') by (rewrite Hs; auto).
       rewrite (hasSeedMarker_off c) by auto. reflexivity. }
  assert (HostDynamicArray.size (data_ c) <> 0) as Hne by lia.
  destruct (hasSeedMarker_reads c' Hl') as (w' & Hr' & Hm');
    [rewrite Hds; exact Hne | rewrite Hs; exact E2 |].
  rewrite Hpw in Hr'. rewrite Hm'. fold seed_marker.
  destruct (N.eqb_spec j (poly_words c)) as [-> | Hnj].
  - rewrite Hsame in Hr'. injection Hr' as ->. reflexivity.
  - destruct (hasSeedMarker_reads c Hl Hne E2) as (w0 & Hr0 & Hm0).
    rewrite (assign_read_other _ _ _ _ _ (not_eq_sym Hnj) Hw), Hr0 in Hr'.
    injection Hr' as ->. rewrite Hm0. reflexivity.
Qed.

Lemma seed_marker_after_write_witness :
  exists c', operator_index_assign zero_ct 16 0xFFFFFFFFFFFFFFFF = Ret c'
             /\ hasSeedMarker c' = Ret true.
Proof.
  eexists. split; [reflexivity |].
  exact (seed_marker_after_write zero_ct _ 16 0xFFFFFFFFFFFFFFFF layout_zero_ct eq_refl).
Defined.

(** ** The constructors that take a context *)

Section Constructors.

Import CiphertextImpl.

Lemma reserve_on_empty (n : N) :
  HostDynamicArray.size (HostDynamicArray.reserve HostDynamicArray.empty n) = 0
  /\ HostDynamicArray.capacity (HostDynamicArray.reserve HostDynamicArray.empty n) = n.
Proof.
  assert (HostDynamicArray.size HostDynamicArray.empty
          <= HostDynamicArray.capacity HostDynamicArray.empty) as H0 by reflexivity.
  split.
  - apply reserve_size.
  - rewrite (reserve_capacity _ H0).
    change (HostDynamicArray.capacity HostDynamicArray.empty) with 0.
    apply N.max_r, N.le_0_l.
Qed.

Lemma construct_cases (context : SEALContext) (p : ParmsID) (n : N) (c : Ciphertext.t) :
  Ciphertext_capacity context p n = Ret c ->
  exists d k, get_context_data context p = Some (d, k)
              /\ 2 <= n /\ n * d * k <= util.size_t_max
              /\ c = set_parmsID p
                       (with_allocation d k
                          (HostDynamicArray.reserve HostDynamicArray.empty (n * d * k))
                          Ciphertext).
Proof.
  unfold Ciphertext_capacity, construct.
  destruct (reserve_cases context p n Ciphertext)
    as [[e ->] | (d & k & Hp & Hn & Hfit & _ & ->)]; [discriminate |].
  intros [= <-]. exists d, k. auto.
Qed.

End Constructors.

(** X14.  The three constructors that take a context differ only in their
    defaults: the first parameter set of the context and capacity 2.  With
    [reserve] as section 4.1 of the specification describes it, a constructor
    that returns has found the parameter set and a capacity of at least 2,
    and it allocates without sizing: the new ciphertext has size 0, the given
    parameter identifier, the degree and modulus count of that set, exactly
    [capacity * degree * modulus_count] allocated words (so [sizeCapacity] is
    the requested capacity when the set has a positive product), default
    scale, correction factor and domain flag, it is transparent, carries no
    seed marker and is laid out. *)
Theorem constructors_allocate_without_sizing
    (context : SEALContext) (p : ParmsID) (n : N) (c : Ciphertext.t) :
  CiphertextImpl.Ciphertext_context context
    = CiphertextImpl.Ciphertext_capacity context (firstParmsID context) 2
  /\ CiphertextImpl.Ciphertext_parms context p
     = CiphertextImpl.Ciphertext_capacity context p 2
  /\ (CiphertextImpl.Ciphertext_capacity context p n = Ret c ->
      2 <= n
      /\ size c = 0
      /\ parmsID c = p
      /\ isNttForm c = false
      /\ scale c = 1%float
      /\ correctionFactor c = 1
      /\ isTransparent c = Ret true
      /\ hasSeedMarker c = Ret false
      /\ layout c
      /\ exists d k,
           get_context_data context p = Some (d, k)
           /\ polyModulusDegree c = d
           /\ coeffModulusSize c = k
           /\ HostDynamicArray.capacity (data_ c) = n * d * k
           /\ (0 < d * k -> sizeCapacity c = n)).
Proof.
  split; [reflexivity |]. split; [reflexivity |].
  intros Hc.
  apply construct_cases in Hc as (d & k & Hp & Hn & Hfit & ->).
  destruct (reserve_on_empty (n * d * k)) as [Hsz Hcap].
  split; [exact Hn |].
  split; [reflexivity |]. split; [reflexivity |]. split; [reflexivity |].
  split; [reflexivity |]. split; [reflexivity |].
  split; [unfold isTransparent; cbn; rewrite Hsz; reflexivity |].
  split; [unfold hasSeedMarker; cbn; rewrite Hsz; reflexivity |].
  split.
  - unfold layout. cbn. rewrite Hsz, Hcap. repeat split; try lia. nia.
  - exists d, k. split; [exact Hp |]. split; [reflexivity |]. split; [reflexivity |].
    split; [exact Hcap |].
    intros Hpos. unfold sizeCapacity, util.wrap. cbn. rewrite Hcap.
    rewrite N.mod_small by (unfold util.size_t_max in Hfit; nia).
    destruct (N.eqb_spec (d * k) 0); [lia |].
    rewrite <- N.mul_assoc. apply N.div_mul. lia.
Qed.

Lemma constructors_allocate_without_sizing_witness :
  exists c, CiphertextImpl.Ciphertext_capacity example_context (1, 2, 3, 4) 3 = Ret c
            /\ size c = 0 /\ sizeCapacity c = 3.
Proof.
  eexists. split; [reflexivity |].
  destruct (proj2 (proj2 (constructors_allocate_without_sizing
                            example_context (1, 2, 3, 4) 3 _)) eq_refl)
    as (_ & Hs & _ & _ & _ & _ & _ & _ & _ & d & k & Hp & _ & _ & _ & Hcap).
  split; [exact Hs |].
  apply Hcap. vm_compute in Hp. injection Hp as <- <-. reflexivity.
Defined.
